(** * weird-c: a closure-converting compiler from a tiny functional language to C

    Shallow embedding of the TypeScript sources (src/main.ts, src/lib/state.ts,
    src/lib/context.ts) and of the C runtime (output/driver.c), together with
    the properties checked against them.

    Conventions of the embedding.
    - JavaScript strings are modelled as [string]; the inputs considered are
      ASCII.  The numbers of a program text are doubles ([JsNumber]); the
      fresh-name counter, which starts at 0 and goes up by one, is a [Z]
      (exact below 2^53), array indices and lengths are [nat].
    - JavaScript objects that are mutated in place (the fresh-name [State],
      the [Map] behind a [Context]) live in an explicit heap, and the
      functions that touch them pass the heap along.
    - A thrown [Error] is modelled by the [Err] constructor of [result]. *)

From Stdlib Require Import ZArith String Ascii List Lia Bool.
From stdpp Require Import base option list strings gmap pretty numbers.
Import ListNotations.
Local Open Scope string_scope.
Local Open Scope Z_scope.
Local Open Scope list_scope.
Set Warnings "-register-all".

(** ** src/lib/state.ts *)

Module State.

(** A [State] value is a reference to an object created by
    [Object.create(StateProto)].  The heap records the own property [curr]
    of every such object; an object without the own property reads
    [StateProto.curr], which is [0] and is never written (the assignment in
    [next] always lands on the receiver). *)
Definition State := nat.

Record Heap := mkHeap {
  own_curr : gmap nat Z;
  allocated : nat
}.

Definition empty : Heap := mkHeap ∅ 0.

Definition StateProto_curr : Z := 0.

(** [this.curr] *)
Definition curr (h : Heap) (s : State) : Z :=
  default StateProto_curr (own_curr h !! s).

(** [next() { this.curr += 1; return pair(this.curr, this); }] *)
Definition next (s : State) (h : Heap) : (Z * State) * Heap :=
  let h' := mkHeap (<[s := curr h s + 1]> (own_curr h)) (allocated h) in
  ((curr h' s, s), h').

(** [makeState = () => Object.create(StateProto)] *)
Definition makeState (h : Heap) : State * Heap :=
  (allocated h, mkHeap (own_curr h) (S (allocated h))).

End State.

(** ** src/lib/context.ts

    The repository holds two versions of this file.  In the first one every
    context is created by [Object.create(contextProto)], so [this.map] is the
    single [Map] stored in the prototype.  In the second one [makeContext]
    builds a [Map] of its own and closes over it. *)

Module Ctx.

Inductive Version := ProtoVersion | ClosureVersion.

Section WithValues.
Context {T : Type}.

(** A context is determined by the [Map] object it reads and writes. *)
Inductive Context :=
| OfProto               (* Object.create(contextProto) *)
| OfClosure (l : nat).  (* closes over the map allocated at [l] *)

Record Heap := mkHeap {
  proto_map : gmap string T;        (* contextProto.map *)
  own_maps : list (gmap string T)   (* maps made by [new Map(entries)] *)
}.

Definition empty : Heap := mkHeap ∅ [].

Definition mapOf (h : Heap) (c : Context) : gmap string T :=
  match c with
  | OfProto => proto_map h
  | OfClosure l => default ∅ (own_maps h !! l)
  end.

Definition updMap (f : gmap string T → gmap string T) (c : Context) (h : Heap)
  : Heap :=
  match c with
  | OfProto => mkHeap (f (proto_map h)) (own_maps h)
  | OfClosure l => mkHeap (proto_map h) (alter f l (own_maps h))
  end.

(** [get(key) { return Option.of(map.get(key)); }]; values of [T] are
    never [null] or [undefined]. *)
Definition get (c : Context) (key : string) (h : Heap) : option T :=
  mapOf h c !! key.

(** [del(key) { map.delete(key); return context; }] *)
Definition del (c : Context) (key : string) (h : Heap) : Context * Heap :=
  (c, updMap (delete key) c h).

(** [set(key, val) { map.set(key, val); return context; }] *)
Definition set (c : Context) (key : string) (val : T) (h : Heap) : Context * Heap :=
  (c, updMap (insert key val) c h).

(** [new Map(entries)]: the entries are inserted in order. *)
Definition newMap (entries : list (string * T)) : gmap string T :=
  foldl (λ m e, <[e.1 := e.2]> m) ∅ entries.

(** [for (const [key, value] of entries) context.set(key, value)] *)
Fixpoint setAll (c : Context) (entries : list (string * T)) (h : Heap) : Heap :=
  match entries with
  | [] => h
  | (key, value) :: rest => setAll c rest (set c key value h).2
  end.

Definition makeContext (v : Version) (entries : list (string * T)) (h : Heap)
  : Context * Heap :=
  match v with
  | ProtoVersion => (OfProto, setAll OfProto entries h)
  | ClosureVersion =>
      (OfClosure (length (own_maps h)),
       mkHeap (proto_map h) (own_maps h ++ [newMap entries]))
  end.

End WithValues.

Arguments Context : clear implicits.
Arguments Heap : clear implicits.

End Ctx.

(** ** JavaScript numbers

    The numbers that reach a [NUMBER] token, and from there a tree, are the
    results of [parseInt] on a text that starts with a digit: doubles that
    hold a non-negative integer, or [Infinity].  A finite one is given by
    the integer it holds. *)

Inductive JsNumber :=
| Finite (value : Z)
| Infinity.

Coercion Finite : Z >-> JsNumber.

Global Instance JsNumber_eq_dec : EqDecision JsNumber.
Proof. solve_decision. Defined.

(** The double nearest to a non-negative integer, ties going to the even
    significand of 53 bits; from [2^1024 - 2^970] on the result is
    [Infinity]. *)
Definition toDouble (z : Z) : JsNumber :=
  if z <? 2 ^ 53 then Finite z
  else
    let e := Z.log2 z - 52 in
    let q := Z.shiftr z e in
    let r := Z.land z (Z.ones e) in
    let half := 2 ^ (e - 1) in
    let q' := if (half <? r) || ((r =? half) && Z.odd q) then q + 1 else q in
    if 2 ^ 1024 <=? Z.shiftl q' e then Infinity else Finite (Z.shiftl q' e).

(** Whether the decimal [v] reads back as the double that holds [x]. *)
Definition readsAs (v x : Z) : bool := bool_decide (toDouble v = Finite x).

(** The number of decimal digits of a positive integer. *)
Definition decimalLength (x : Z) : Z := Z.of_nat (String.length (pretty x)).

(** The decimal with the fewest significant digits that reads back as [x],
    the nearest to [x] if there are two (the one with the even last digit
    if they are as near); [k] is the number of significant digits tried,
    [n] the number of digits of [x]. *)
Fixpoint shortest (fuel : nat) (k n x : Z) : Z :=
  match fuel with
  | O => x
  | S fuel' =>
      let unit := 10 ^ (n - k) in
      let lo := x / unit * unit in
      let hi := lo + unit in
      if readsAs lo x && readsAs hi x
      then if (x - lo <? hi - x) || ((x - lo =? hi - x) && Z.even (lo / unit))
           then lo else hi
      else if readsAs lo x then lo
      else if readsAs hi x then hi
      else shortest fuel' (k + 1) n x
  end.

(** [s] without its trailing zeros. *)
Fixpoint significant (s : list ascii) : list ascii :=
  match s with
  | [] => []
  | ch :: rest =>
      match significant rest with
      | [] => if bool_decide (ch = "0"%char) then [] else [ch]
      | rest' => ch :: rest'
      end
  end.

(** Number::toString on a positive integer: up to 21 digits are written
    out, a longer number is written with an exponent. *)
Definition positiveToString (x : Z) : string :=
  let v := shortest (Z.to_nat (decimalLength x)) 1 (decimalLength x) x in
  let n := decimalLength v in
  if n <=? 21 then pretty v
  else
    match significant (list_ascii_of_string (pretty v)) with
    | [] => pretty v
    | [d] => String d ("e+" +:+ pretty (n - 1))
    | d :: ds =>
        String d ("." +:+ string_of_list_ascii ds +:+ "e+" +:+ pretty (n - 1))
    end.

(** [`${data}`] on a number. *)
Definition numberToString (data : JsNumber) : string :=
  match data with
  | Infinity => "Infinity"
  | Finite z =>
      if z =? 0 then "0"
      else if z <? 0 then "-" +:+ positiveToString (- z)
      else positiveToString z
  end.

(** ** src/main.ts: syntax trees *)

Definition Name := string.
Definition Prop_ := string.

Inductive Tree :=
| Num (data : JsNumber)
| Var (data : Name)
| Lam (prop : Prop_) (body : Tree)
| App (func argm : Tree)
| Let (name : Name) (bind body : Tree).

Inductive Expr :=
| ENum (data : JsNumber)
| ERef (data : string)
| EIdx (data : string) (idx : nat)
| EApp (func : Name) (argm : Expr)
| ECls (prop : Prop_) (body : list Expr)
| ELet (name : Name) (bind body : Expr).

Inductive Topl :=
| TDecl (free : nat) (name : Name) (env prop : Prop_) (body : Expr)
| TMain (expr : Expr).

Definition Prog := list Topl.

(** ** src/main.ts: free variables

    A JavaScript [Set] keeps its elements in insertion order and ignores the
    insertion of an element it already holds; it is modelled by the list of
    its elements in that order. *)

Definition setAdd (acc : list string) (x : string) : list string :=
  if bool_decide (x ∈ acc) then acc else acc ++ [x].

(** [new Set(array)] *)
Definition newSet (l : list string) : list string := foldl setAdd [] l.

Fixpoint free (tree : Tree) : list string :=
  match tree with
  | Var data => newSet [data]
  | Num _ => newSet []
  | Lam prop body =>
      let freeProp := free body in
      newSet (filter (λ x, x ≠ prop) freeProp)
  | App func argm =>
      let freeFunc := free func in
      let freeArgm := free argm in
      newSet (freeFunc ++ freeArgm)
  | Let name bind body =>
      let freeBind := free bind in
      let freeExpr := filter (λ x, x ≠ name) freeBind in
      let freeBody := free body in
      newSet (freeExpr ++ freeBody)
  end.

(** ** src/main.ts: substitution

    [map] is a reference to a context; [del] updates the map behind it, so
    the heap of contexts is passed through the traversal in evaluation
    order. *)

Abbreviation CtxHeap := (Ctx.Heap Expr).

Definition substituteRef (map : Ctx.Context) (data : Name) (h : CtxHeap) : Expr :=
  match Ctx.get map data h with
  | Some value => value
  | None => ERef data
  end.

Fixpoint substitute (map : Ctx.Context) (expr : Expr) (h : CtxHeap) {struct expr}
  : Expr * CtxHeap :=
  match expr with
  | ENum data => (ENum data, h)
  | EIdx data idx => (EIdx data idx, h)
  | ERef data => (substituteRef map data h, h)
  | ECls prop body =>
      (* body.map((expr) => substitute(map, expr)) *)
      let fix substituteAll (l : list Expr) (h : CtxHeap) : list Expr * CtxHeap :=
        match l with
        | [] => ([], h)
        | e :: rest =>
            let '(e', h1) := substitute map e h in
            let '(rest', h2) := substituteAll rest h1 in
            (e' :: rest', h2)
        end in
      let '(newBody, h') := substituteAll body h in
      (ECls prop newBody, h')
  | EApp func argm =>
      let '(newArgm, h') := substitute map argm h in
      (EApp func newArgm, h')
  | ELet name bind body =>
      let '(newBind, h1) := substitute map bind h in
      let '(map', h2) := Ctx.del map name h1 in
      let '(newBody, h3) := substitute map' body h2 in
      (ELet name newBind newBody, h3)
  end.

(** The traversal of a [Cls] body, named so that statements can mention it. *)
Fixpoint substituteAll (map : Ctx.Context) (l : list Expr) (h : CtxHeap)
  : list Expr * CtxHeap :=
  match l with
  | [] => ([], h)
  | e :: rest =>
      let '(e', h1) := substitute map e h in
      let '(rest', h2) := substituteAll map rest h1 in
      (e' :: rest', h2)
  end.

(** ** src/main.ts: closure conversion *)

Record World := mkWorld {
  states : State.Heap;
  contexts : CtxHeap
}.

Definition Converted : Type := Prog * (Expr * State.State).

(** [`env${i}`], [`cls${j}`], [`_${nextVar}`] *)
Definition template (prefix : string) (n : Z) : string := prefix +:+ pretty n.

Section Convert.
(** Which version of src/lib/context.ts is linked in. *)
Variable version : Ctx.Version.

Definition next (s : State.State) (w : World) : (Z * State.State) * World :=
  let '(r, sh) := State.next s (states w) in (r, mkWorld sh (contexts w)).

Definition convertNum (state : State.State) (data : JsNumber) (w : World)
  : Converted * World :=
  (([], (ENum data, state)), w).

Definition convertVar (state : State.State) (data : Name) (w : World)
  : Converted * World :=
  (([], (ERef data, state)), w).

Fixpoint convert (state : State.State) (tree : Tree) (w : World) {struct tree}
  : Converted * World :=
  match tree with
  | Num data => convertNum state data w
  | Var data => convertVar state data w
  | Lam prop body =>
      (* convertLam *)
      let '((i, state1), w1) := next state w in
      let '((j, state2), w2) := next state1 w1 in
      let lam := Lam prop body in
      let fvs := free lam in
      let env := template "env" i in
      let cls := template "cls" j in
      let '(sub, ch3) :=
        Ctx.makeContext version
          (imap (λ idx varName, (varName, EIdx env idx)) fvs) (contexts w2) in
      let w3 := mkWorld (states w2) ch3 in
      let '((xs, (res, state3)), w4) := convert state2 body w3 in
      let '(bd, ch5) := substitute sub res (contexts w4) in
      let w5 := mkWorld (states w4) ch5 in
      let code := TDecl (length fvs) cls env prop bd in
      let refs := map ERef fvs in
      let clos := ECls cls refs in
      ((xs ++ [code], (clos, state3)), w5)
  | App func argm =>
      (* convertApp *)
      let '((funProg, (expr, state1)), w1) := convert state func w in
      let '((nextVar, state3), w2) := next state1 w1 in
      let '((argProg, (body, state4)), w3) := convert state3 argm w2 in
      let value :=
        ELet (template "_" nextVar) expr (EApp (template "_" nextVar) body) in
      let progs := funProg ++ argProg in
      ((progs, (value, state4)), w3)
  | Let name bind body =>
      (* convertLet *)
      let '((bindProg, (expr, state1)), w1) := convert state bind w in
      let '((bodyProg, (code, state2)), w2) := convert state1 body w1 in
      let value := ELet name expr code in
      let progs := bindProg ++ bodyProg in
      ((progs, (value, state2)), w2)
  end.

(** [convertCls]: the whole program, from a fresh state and the contexts
    heap as it is when the module has just been loaded. *)
Definition convertCls (tree : Tree) : Prog :=
  let '(s, sh) := State.makeState State.empty in
  let '((decs, (code, _)), _) := convert s tree (mkWorld sh Ctx.empty) in
  decs ++ [TMain code].

End Convert.

(** ** src/main.ts: code generation of expressions *)

Definition Code := string.
Definition Build := string → Code.

(** [array.join(sep)] *)
Fixpoint join (sep : string) (l : list string) : string :=
  match l with
  | [] => ""
  | [x] => x
  | x :: rest => x +:+ sep +:+ join sep rest
  end.

Definition bindReturn (bind : Name) : Build :=
  λ body, bind +:+ " = " +:+ body +:+ ";".

Definition exprReturn (expr : Name) : Code := "return " +:+ expr +:+ ";".

Definition callReturn (expr : Name) : Code := "print_val(" +:+ expr +:+ ");".

Definition sameReturn (expr : Name) : Code := expr.

Definition codegenRef (build : Build) (data : string) : Code := build data.

Definition codegenNum (build : Build) (data : JsNumber) : Code :=
  build ("build_int(" +:+ numberToString data +:+ ")").

Definition codegenIdx (build : Build) (data : string) (index : nat) : Code :=
  build (data +:+ "[" +:+ pretty index +:+ "]").

(** The two revisions of the generator in the repository differ in
    [codegenCls]: src/main.ts renders the captured expressions with the
    continuation it was given, the other revision with [sameReturn]. *)
Inductive Revision := MainTs | OtherRevision.

Section Codegen.
Variable revision : Revision.

Fixpoint codegenExpr (build : Build) (expr : Expr) {struct expr} : Code :=
  match expr with
  | ENum data => codegenNum build data
  | ERef data => codegenRef build data
  | EIdx data idx => codegenIdx build data idx
  | EApp func argm =>
      (* codegenApp *)
      let code := codegenExpr sameReturn argm in
      let expr :=
        func +:+ "->c.code(" +:+ func +:+ "->c.env, " +:+ code +:+ ")" in
      build expr
  | ECls prop body =>
      (* codegenCls *)
      let code :=
        match revision with
        | MainTs => map (codegenExpr build) body
        | OtherRevision => map (codegenExpr sameReturn) body
        end in
      let cont := join ", " code in
      build ("build_cls(" +:+ prop +:+ ", (struct val *["
             +:+ pretty (length body) +:+ "]){ " +:+ cont +:+ " })")
  | ELet name bind body =>
      (* codegenLet *)
      let expr := bindReturn name in
      let code := codegenExpr expr bind in
      let cont := codegenExpr build body in
      join (String "010" "") ["struct val *" +:+ name +:+ ";"; code; cont]
  end.

End Codegen.

(** What the specification asks of [codegenCls]: every captured expression
    under the identity continuation, the continuation applied once, to the
    closure construction. *)
Definition codegenCls_spec (revision : Revision) (build : Build) (prop : Prop_)
    (body : list Expr) : Code :=
  build ("build_cls(" +:+ prop +:+ ", (struct val *["
         +:+ pretty (length body) +:+ "]){ "
         +:+ join ", " (map (codegenExpr revision sameReturn) body) +:+ " })").

(** ** output/driver.c

    A [val_t] is a tag and a union.  Reading the member [integer] of a union
    that holds a closure reinterprets the bytes of the code pointer; the
    result depends on the platform and is taken as a parameter
    ([int_of_code]). *)

Module Driver.

Inductive val_tag := CLOSURE_T | INT_T.

Inductive val_union :=
| UClosure (code : nat) (env : list nat)
| UInteger (integer : Z).

Record val_t := mkVal { tag : val_tag; c : val_union }.

(** [build_cls] and [build_int] (the allocation cannot be observed by
    [print_val] and is left out). *)
Definition build_cls (code : nat) (env : list nat) : val_t :=
  mkVal CLOSURE_T (UClosure code env).
Definition build_int (val : Z) : val_t := mkVal INT_T (UInteger val).

Section Printing.
Variable int_of_code : nat → Z.

(** [val->c.integer] *)
Definition c_integer (v : val_t) : Z :=
  match c v with
  | UInteger n => n
  | UClosure code _ => int_of_code code
  end.

(** A [switch] body is a list of labelled statement groups; control
    enters at the matching label and runs on through the groups that
    follow until one of them leaves the [switch]. *)
Inductive label := Case (t : val_tag) | Default.
Inductive exit := FallThrough | Leave.

Definition val_tag_eqb (a b : val_tag) : bool :=
  match a, b with
  | CLOSURE_T, CLOSURE_T | INT_T, INT_T => true
  | _, _ => false
  end.

Definition matches (t : val_tag) (l : label) : bool :=
  match l with Case t' => val_tag_eqb t t' | Default => false end.

Definition is_default (l : label) : bool :=
  match l with Default => true | Case _ => false end.

Definition group : Type := label * (string * exit).

(** Output of the groups from the entry point on. *)
Fixpoint run (gs : list group) : string :=
  match gs with
  | [] => ""
  | (_, (out, FallThrough)) :: rest => out +:+ run rest
  | (_, (out, Leave)) :: _ => out
  end.

Fixpoint enter (p : label → bool) (gs : list group) : option (list group) :=
  match gs with
  | [] => None
  | g :: rest => if p g.1 then Some gs else enter p rest
  end.

Definition switch (t : val_tag) (gs : list group) : string :=
  match enter (matches t) gs with
  | Some gs' => run gs'
  | None =>
      match enter is_default gs with
      | Some gs' => run gs'
      | None => ""
      end
  end.

Definition newline : string := String "010" "".

(** [print_val]: no group of the [switch] ends in [break]; only the
    [default] group leaves, by [return]. *)
Definition print_val (val : val_t) : string :=
  switch (tag val)
    [ (Case CLOSURE_T, ("<#closure>" +:+ newline, FallThrough));
      (Case INT_T, (pretty (c_integer val) +:+ newline, FallThrough));
      (Default, ("", Leave)) ].

End Printing.

End Driver.

(** ** src/main.ts: tokens *)

Inductive Token :=
| NUMBER (value : JsNumber)
| SYMBOL (value : string)
| SEMICOLON | LPAREN | RPAREN | COMMA | EQUAL | ARROW | FUN | LET | EOF.

Inductive Tag :=
| tNUMBER | tSYMBOL | tSEMICOLON | tLPAREN | tRPAREN | tCOMMA | tEQUAL
| tARROW | tFUN | tLET | tEOF.

(** [token.tag] *)
Definition tagOf (t : Token) : Tag :=
  match t with
  | NUMBER _ => tNUMBER | SYMBOL _ => tSYMBOL | SEMICOLON => tSEMICOLON
  | LPAREN => tLPAREN | RPAREN => tRPAREN | COMMA => tCOMMA
  | EQUAL => tEQUAL | ARROW => tARROW | FUN => tFUN | LET => tLET
  | EOF => tEOF
  end.

Definition tagName (t : Tag) : string :=
  match t with
  | tNUMBER => "NUMBER" | tSYMBOL => "SYMBOL" | tSEMICOLON => "SEMICOLON"
  | tLPAREN => "LPAREN" | tRPAREN => "RPAREN" | tCOMMA => "COMMA"
  | tEQUAL => "EQUAL" | tARROW => "ARROW" | tFUN => "FUN" | tLET => "LET"
  | tEOF => "EOF"
  end.

Global Instance Tag_eq_dec : EqDecision Tag.
Proof. solve_decision. Defined.

(** A computation that may throw.  [OutOfFuel] is the answer of a bounded
    loop of the model whose bound was too small; the entry points below
    choose bounds for which it does not occur. *)
Inductive result (A : Type) :=
| Ok (a : A)
| Err (msg : string)
| OutOfFuel.
Arguments Ok {A} a.
Arguments Err {A} msg.
Arguments OutOfFuel {A}.

Definition bind {A B} (m : result A) (k : A → result B) : result B :=
  match m with
  | Ok a => k a
  | Err msg => Err msg
  | OutOfFuel => OutOfFuel
  end.

Notation "'do' p <- m ; k" := (bind m (fun p => k))
  (at level 10, p pattern, m at level 100, k at level 200).

(** ** src/main.ts: the scanner

    [source] is the list of the characters of the source text, [current_pos]
    and [start_pos] index into it as in the code. *)

Module Scanner.

Definition zero : ascii := "000"%char.

Definition code (c : ascii) : N := N_of_ascii c.

(** [char >= "0" && char <= "9"] *)
Definition isDigit (char : ascii) : bool :=
  (code "0" <=? code char)%N && (code char <=? code "9")%N.

Definition isAlpha (char : ascii) : bool :=
  ((code "a" <=? code char)%N && (code char <=? code "z")%N)
  || ((code "A" <=? code char)%N && (code char <=? code "Z")%N)
  || bool_decide (char = "_"%char).

Definition isAlphaNumeric (char : ascii) : bool := isAlpha char || isDigit char.

(** [keywords.get(value)] *)
Definition keywords (value : string) : option Token :=
  if bool_decide (value = "fun") then Some FUN
  else if bool_decide (value = "let") then Some LET
  else None.

(** [parseInt] on a lexeme of [number]: such a lexeme starts with a digit
    and holds only digits and at most one ['.'], so the result is the
    double nearest to the value of its leading run of digits.  (ECMAScript
    lets an implementation read the digits after the 20th significant one
    as zeros; V8 reads them all.) *)
Fixpoint parseDigits (acc : Z) (s : list ascii) : Z :=
  match s with
  | ch :: rest =>
      if isDigit ch
      then parseDigits (10 * acc + Z.of_N (code ch - code "0")) rest
      else acc
  | [] => acc
  end.

Definition parseInt (s : list ascii) : JsNumber := toDouble (parseDigits 0 s).

Section Source.
Variable source : list ascii.

(** [source.substring(a, b)] for [a <= b] *)
Definition substring (a b : nat) : list ascii := take (b - a) (drop a source).

Definition peek (current_pos : nat) : ascii :=
  if decide (length source ≤ current_pos)%nat then zero
  else default zero (source !! current_pos).

Definition peekNext (current_pos : nat) : ascii :=
  if decide (length source ≤ current_pos + 1)%nat then zero
  else default zero (source !! (current_pos + 1)%nat).

(** [while (p(peek())) advance()]; at most [fuel] rounds. *)
Fixpoint advanceWhile (p : ascii → bool) (fuel : nat) (current_pos : nat)
  : nat :=
  match fuel with
  | O => current_pos
  | S fuel' =>
      if p (peek current_pos)
      then advanceWhile p fuel' (S current_pos)
      else current_pos
  end.

(** The bound of the loops over the rest of the source. *)
Definition left (current_pos : nat) : nat := (length source - current_pos)%nat.

(** [number()]: the position it stops at and the token it pushes. *)
Definition number (start_pos current_pos : nat) : nat * Token :=
  let pos1 := advanceWhile isDigit (left current_pos) current_pos in
  let pos2 :=
    if bool_decide (peek pos1 = "."%char) && isDigit (peekNext pos1)
    then advanceWhile isDigit (left (S pos1)) (S pos1)
    else pos1 in
  let value := parseInt (substring start_pos pos2) in
  (pos2, NUMBER value).

(** [identifier()] *)
Definition identifier (start_pos current_pos : nat) : nat * Token :=
  let pos1 := advanceWhile isAlphaNumeric (left current_pos) current_pos in
  let value := string_of_list_ascii (substring start_pos pos1) in
  match keywords value with
  | None => (pos1, SYMBOL value)
  | Some token => (pos1, token)
  end.

(** [matchToken(expected)]: whether it matched, and the new position. *)
Definition matchToken (expected : ascii) (current_pos : nat) : bool * nat :=
  if decide (length source ≤ current_pos)%nat then (false, current_pos)
  else if bool_decide (source !! current_pos = Some expected)
       then (true, S current_pos)
       else (false, current_pos).

(** The loop of [scanTokens]; [tokens] is the array filled so far. *)
Fixpoint scanLoop (fuel : nat) (current_pos : nat) (tokens : list Token)
  : result (list Token) :=
  if decide (current_pos < length source)%nat then
    match fuel with
    | O => OutOfFuel
    | S fuel' =>
        let start_pos := current_pos in
        let char := default zero (source !! current_pos) in
        let current_pos := S current_pos in
        if bool_decide (char = " "%char) || bool_decide (char = "013"%char)
           || bool_decide (char = "010"%char)
           || bool_decide (char = "009"%char)
        then scanLoop fuel' current_pos tokens
        else if bool_decide (char = "("%char)
        then scanLoop fuel' current_pos (tokens ++ [LPAREN])
        else if bool_decide (char = ")"%char)
        then scanLoop fuel' current_pos (tokens ++ [RPAREN])
        else if bool_decide (char = "="%char)
        then
          let '(m, current_pos) := matchToken ">" current_pos in
          scanLoop fuel' current_pos (tokens ++ [if m then ARROW else EQUAL])
        else if bool_decide (char = ";"%char)
        then scanLoop fuel' current_pos (tokens ++ [SEMICOLON])
        else if bool_decide (char = ","%char)
        then scanLoop fuel' current_pos (tokens ++ [COMMA])
        else if isDigit char
        then
          let '(current_pos, token) := number start_pos current_pos in
          scanLoop fuel' current_pos (tokens ++ [token])
        else if isAlpha char
        then
          let '(current_pos, token) := identifier start_pos current_pos in
          scanLoop fuel' current_pos (tokens ++ [token])
        else Err ("Unexpected character (" +:+ String char "" +:+ ")")
    end
  else Ok (tokens ++ [EOF]).

(** The scan from a position on; every round moves on by at least one
    character, so the rest of the source bounds the rounds. *)
Definition scanFrom (current_pos : nat) (tokens : list Token)
  : result (list Token) :=
  scanLoop (left current_pos) current_pos tokens.

End Source.

Definition scanner (source : string) : result (list Token) :=
  scanFrom (list_ascii_of_string source) 0 [].

End Scanner.

(** ** src/main.ts: the parser

    [tokens] is the array handed to [parser]; [current] is threaded through
    the parsing functions, each of which answers its value together with the
    new [current]. *)

Module Parser.

(** JavaScript truthiness of the value [consume] gets from [expect]. *)
Class Truthy (R : Type) := truthy : R → bool.
Global Instance truthy_number : Truthy JsNumber :=
  λ n, negb (bool_decide (n = Finite 0)).
Global Instance truthy_string : Truthy string := λ s, negb (bool_decide (s = "")).
Global Instance truthy_token : Truthy Token := λ _, true.
Global Instance truthy_tree : Truthy Tree := λ _, true.

(** The text between double quotes. *)
Definition quoted (s : string) : string :=
  String "034" (s +:+ String "034" "").

Section Tokens.
Variable tokens : list Token.

Definition P (A : Type) : Type := nat → result (A * nat).

(** [tokens.at(current)] *)
Definition peek : P Token := λ current,
  match tokens !! current with
  | Some token => Ok (token, current)
  | None => Err "undefined token"
  end.

(** [tokens.at(current - 1)]; index [-1] is the last element. *)
Definition previous : P Token := λ current,
  match (match current with
         | O => list.last tokens
         | S n => tokens !! n
         end) with
  | Some token => Ok (token, current)
  | None => Err "undefined token"
  end.

Definition fail {A} : P A := λ current,
  do (token, _) <- peek current;
  Err "Unexpected token [object Object]".

Definition isAtEnd : P bool := λ current,
  do (token, _) <- peek current;
  Ok (bool_decide (tagOf token = tEOF), current).

Definition check (tag : Tag) : P bool := λ current,
  do (atEnd, _) <- isAtEnd current;
  if atEnd then Ok (false, current)
  else do (token, _) <- peek current;
       Ok (bool_decide (tagOf token = tag), current).

Definition advance : P Token := λ current,
  do (atEnd, _) <- isAtEnd current;
  previous (if atEnd then current else S current).

Fixpoint matchToken (tags : list Tag) : P bool := λ current,
  match tags with
  | [] => Ok (false, current)
  | tag :: rest =>
      do (c, _) <- check tag current;
      if c then do (_, current) <- advance current; Ok (true, current)
      else matchToken rest current
  end.

Definition consume {R} `{Truthy R} (expect : Token → result R) : P R :=
  λ current,
  do (currentToken, _) <- peek current;
  do expectedValue <- expect currentToken;
  if negb (truthy expectedValue)
  then Err ("Parser error with " +:+ tagName (tagOf currentToken))
  else do (_, current) <- advance current; Ok (expectedValue, current).

Definition consumeToken {R} `{Truthy R} (tag : Tag) (callback : Token → R)
  : P R :=
  consume (λ token,
    if negb (bool_decide (tagOf token = tag))
    then Err ("Expected token with tag " +:+ quoted (tagName tag)
              +:+ ", but got " +:+ quoted (tagName (tagOf token)))
    else Ok (callback token)).

(** [(token) => token.value] on a [NUMBER] and on a [SYMBOL] token.  In
    src/main.ts these are the callbacks of [parseNumber] and
    [parseSymbol], so [consume] tests the bare value for truthiness. *)
Definition numberValue (token : Token) : JsNumber :=
  match token with NUMBER value => value | _ => 0 end.
Definition symbolValue (token : Token) : string :=
  match token with SYMBOL value => value | _ => "" end.

Definition parseNumber : P Tree := λ current,
  do (value, current) <- consumeToken tNUMBER numberValue current;
  Ok (Num value, current).

Definition parseSymbol : P Tree := λ current,
  do (value, current) <- consumeToken tSYMBOL symbolValue current;
  Ok (Var value, current).

Section Expression.
(** The recursive call [expression()]. *)
Variable expression : P Tree.

Definition parseParens : P Tree := λ current,
  do (_, current) <- consumeToken tLPAREN id current;
  do (value, current) <- expression current;
  do (_, current) <- consumeToken tRPAREN id current;
  Ok (value, current).

Definition parseAtom : P Tree := λ current,
  do (token, _) <- peek current;
  if bool_decide (tagOf token = tNUMBER) then parseNumber current
  else if bool_decide (tagOf token = tSYMBOL) then parseSymbol current
  else if bool_decide (tagOf token = tLPAREN) then parseParens current
  else fail current.

Definition parseLet : P Tree := λ current,
  do (name, current) <- consumeToken tSYMBOL symbolValue current;
  do (_, current) <- consumeToken tEQUAL id current;
  do (bind, current) <- expression current;
  do (_, current) <- consumeToken tSEMICOLON id current;
  do (body, current) <- expression current;
  Ok (Let name bind body, current).

Definition parseFun : P Tree := λ current,
  do (param, current) <- consumeToken tSYMBOL symbolValue current;
  do (_, current) <- consumeToken tARROW id current;
  do (body, current) <- expression current;
  Ok (Lam param body, current).

(** The [while (true)] loop of [parseCall]; [args] is the array filled
    so far, [fuel] bounds the rounds. *)
Fixpoint parseCallLoop (fuel : nat) (args : list Tree) : P (list Tree) :=
  λ current,
  match fuel with
  | O => OutOfFuel
  | S fuel' =>
      do (arg, current) <- expression current;
      let args := args ++ [arg] in
      do (comma, current) <- matchToken [tCOMMA] current;
      if comma then parseCallLoop fuel' args current
      else do (_, current) <- matchToken [tRPAREN] current;
           Ok (args, current)
  end.

Definition parseCall (fuel : nat) (func : Tree) : P Tree := λ current,
  do (args, current) <- parseCallLoop fuel [] current;
  Ok (foldl App func args, current).

Definition parseApp (fuel : nat) : P Tree := λ current,
  do (func, current) <- parseAtom current;
  do (lparen, current) <- matchToken [tLPAREN] current;
  if lparen then parseCall fuel func current
  else Ok (func, current).

Definition expressionBody (fuel : nat) : P Tree := λ current,
  do (isLet, current) <- matchToken [tLET] current;
  if isLet then parseLet current
  else do (isFun, current) <- matchToken [tFUN] current;
       if isFun then parseFun current
       else parseApp fuel current.

End Expression.

(** [expression], with the depth of the recursion bounded by [fuel]. *)
Fixpoint expression (fuel : nat) : P Tree :=
  match fuel with
  | O => λ _, OutOfFuel
  | S fuel' => expressionBody (expression fuel') fuel'
  end.

End Tokens.

(** [parser(initial)].  Every nested call of [expression] and every round
    of the loop of [parseCall] comes after a token was consumed, so the
    number of tokens bounds both. *)
Definition parser (initial : list Token) : result Tree :=
  do (tree, _) <- expression initial (S (length initial)) 0%nat;
  Ok tree.

End Parser.

(** ** Vocabulary of the statements *)

(** The invariant of closure conversion: every [Ref] names something bound
    in the generated function, the names in scope being [bound]; a [Let]
    brings its name into scope for its body. *)
Fixpoint resolved (bound : list string) (expr : Expr) : bool :=
  match expr with
  | ENum _ | EIdx _ _ => true
  | ERef data => bool_decide (data ∈ bound)
  | EApp _ argm => resolved bound argm
  | ECls _ body => forallb (resolved bound) body
  | ELet name bind body => resolved bound bind && resolved (name :: bound) body
  end.

Definition declResolved (topl : Topl) : bool :=
  match topl with
  | TDecl _ _ _ prop body => resolved [prop] body
  | TMain _ => true
  end.

(** Substitution as the specification words it: a copy of the expression
    under a map that is a value, a [Let] hiding its name in its body only. *)
Fixpoint substitute_spec (map : gmap string Expr) (expr : Expr) : Expr :=
  match expr with
  | ENum data => ENum data
  | EIdx data idx => EIdx data idx
  | ERef data => default (ERef data) (map !! data)
  | ECls prop body => ECls prop (List.map (substitute_spec map) body)
  | EApp func argm => EApp func (substitute_spec map argm)
  | ELet name bind body =>
      ELet name (substitute_spec map bind) (substitute_spec (delete name map) body)
  end.

(** fun y => (let x = 1; x)(x) *)
Definition leakyLambda : Tree :=
  Lam "y" (App (Let "x" (Num 1) (Var "x")) (Var "x")).

(** The number of fresh integers the conversion of a tree draws. *)
Fixpoint draws (tree : Tree) : Z :=
  match tree with
  | Num _ | Var _ => 0
  | Lam _ body => 2 + draws body
  | App func argm => draws func + 1 + draws argm
  | Let _ bind body => draws bind + draws body
  end.

(** The value denoted by a run of decimal digits. *)
Definition decimalValue (ds : list ascii) : Z :=
  foldl (λ acc ch, 10 * acc + Z.of_N (Scanner.code ch - Scanner.code "0")) 0 ds.

(** A numeric literal: a run of digits, optionally followed by ['.'] and a
    second run of digits. *)
Definition literal (ds : list ascii) (fs : option (list ascii)) : list ascii :=
  ds ++ match fs with None => [] | Some fs => "."%char :: fs end.

Definition digits (ds : list ascii) : Prop :=
  ds ≠ [] ∧ Forall (λ ch, Scanner.isDigit ch = true) ds.

(** The text after the literal does not continue it. *)
Definition endsLiteral (fs : option (list ascii)) (rest : list ascii) : bool :=
  negb (Scanner.isDigit (hd Scanner.zero rest))
  && match fs with
     | Some _ => true
     | None => negb (bool_decide (hd Scanner.zero rest = "."%char)
                     && Scanner.isDigit (hd Scanner.zero (tl rest)))
     end.


(** ** Vocabulary of the further statements *)

(** The number of lambdas of a tree. *)
Fixpoint countLam (tree : Tree) : nat :=
  match tree with
  | Num _ | Var _ => 0
  | Lam _ body => S (countLam body)
  | App func argm => countLam func + countLam argm
  | Let _ bind body => countLam bind + countLam body
  end.

Definition isDecl (topl : Topl) : bool :=
  match topl with TDecl _ _ _ _ _ => true | TMain _ => false end.

(** The names of the hoisted functions of a program, in order. *)
Definition declNames (prog : Prog) : list Name :=
  omap (λ topl, match topl with
                | TDecl _ name _ _ _ => Some name
                | TMain _ => None
                end) prog.

(** A context that refers to a map of the heap. *)
Definition validCtx {T} (h : Ctx.Heap T) (c : Ctx.Context) : Prop :=
  match c with
  | Ctx.OfProto => True
  | Ctx.OfClosure l => (l < length (Ctx.own_maps h))%nat
  end.

(** The names bound by the [Let]s of an expression. *)
Fixpoint letNames (expr : Expr) : list string :=
  match expr with
  | ENum _ | ERef _ | EIdx _ _ => []
  | EApp _ argm => letNames argm
  | ECls _ body => concat (List.map letNames body)
  | ELet name bind body => name :: letNames bind ++ letNames body
  end.

(** Substitution with the map passed along as a value: what a [Let] deletes
    stays deleted for what is substituted after it. *)
Fixpoint substitute_pure (m : gmap string Expr) (expr : Expr) {struct expr}
  : Expr * gmap string Expr :=
  match expr with
  | ENum data => (ENum data, m)
  | EIdx data idx => (EIdx data idx, m)
  | ERef data => (default (ERef data) (m !! data), m)
  | ECls prop body =>
      let fix all (l : list Expr) (m : gmap string Expr)
        : list Expr * gmap string Expr :=
        match l with
        | [] => ([], m)
        | e :: rest =>
            let '(e', m1) := substitute_pure m e in
            let '(rest', m2) := all rest m1 in
            (e' :: rest', m2)
        end in
      let '(newBody, m') := all body m in
      (ECls prop newBody, m')
  | EApp func argm =>
      let '(newArgm, m') := substitute_pure m argm in
      (EApp func newArgm, m')
  | ELet name bind body =>
      let '(newBind, m1) := substitute_pure m bind in
      let '(newBody, m2) := substitute_pure (delete name m1) body in
      (ELet name newBind newBody, m2)
  end.

Fixpoint substituteAll_pure (m : gmap string Expr) (l : list Expr)
  : list Expr * gmap string Expr :=
  match l with
  | [] => ([], m)
  | e :: rest =>
      let '(e', m1) := substitute_pure m e in
      let '(rest', m2) := substituteAll_pure m1 rest in
      (e' :: rest', m2)
  end.

(** Closure conversion as a function of the tree and of the count of the
    state alone: the names come from the count, every lambda substitutes
    with a map of its own. *)
Fixpoint convert_pure (count : Z) (tree : Tree) : Prog * Expr :=
  match tree with
  | Num data => ([], ENum data)
  | Var data => ([], ERef data)
  | Lam prop body =>
      let fvs := free (Lam prop body) in
      let env := "env" +:+ pretty (count + 1) in
      let cls := "cls" +:+ pretty (count + 2) in
      let sub := Ctx.newMap (imap (λ idx varName, (varName, EIdx env idx)) fvs) in
      let '(xs, res) := convert_pure (count + 2) body in
      let bd := (substitute_pure sub res).1 in
      (xs ++ [TDecl (length fvs) cls env prop bd], ECls cls (List.map ERef fvs))
  | App func argm =>
      let '(funProg, expr) := convert_pure count func in
      let k := count + draws func + 1 in
      let '(argProg, body) := convert_pure k argm in
      (funProg ++ argProg,
       ELet ("_" +:+ pretty k) expr (EApp ("_" +:+ pretty k) body))
  | Let name bind body =>
      let '(bindProg, expr) := convert_pure count bind in
      let '(bodyProg, code) := convert_pure (count + draws bind) body in
      (bindProg ++ bodyProg, ELet name expr code)
  end.

(** What the scanner pushes before the final [EOF]: numbers that are not
    negative, symbols that are not empty and not a keyword, and never an
    [EOF]. *)
Definition tokenOk (token : Token) : bool :=
  match token with
  | NUMBER (Finite value) => 0 <=? value
  | NUMBER Infinity => true
  | SYMBOL value =>
      negb (bool_decide (value = "")) && negb (bool_decide (value = "fun"))
      && negb (bool_decide (value = "let"))
  | EOF => false
  | _ => true
  end.

(** [" "], ["\r"], ["\n"], ["\t"] *)
Definition isWhite (char : ascii) : bool :=
  bool_decide (char = " "%char) || bool_decide (char = "013"%char)
  || bool_decide (char = "010"%char) || bool_decide (char = "009"%char).

(** The characters some rule of the scanner accepts. *)
Definition isLegal (char : ascii) : bool :=
  isWhite char || Scanner.isDigit char || Scanner.isAlpha char
  || bool_decide (char ∈ ["("; ")"; "="; ">"; ";"; ","; "."]%char).

(** The token of a word: the keyword it spells, or else a symbol. *)
Definition wordToken (word : list ascii) : Token :=
  if bool_decide (string_of_list_ascii word = "fun") then FUN
  else if bool_decide (string_of_list_ascii word = "let") then LET
  else SYMBOL (string_of_list_ascii word).

(** The tokens of a scan, after the tokens that were there before it. *)
Definition prepend (before : list Token) (r : result (list Token))
  : result (list Token) :=
  match r with
  | Ok tokens => Ok (before ++ tokens)
  | Err msg => Err msg
  | OutOfFuel => OutOfFuel
  end.

(** A parsing step that comes to an end, and on success has moved on in the
    tokens without leaving them. *)
Definition advances {A} (tokens : list Token) (current : nat)
    (r : result (A * nat)) : Prop :=
  match r with
  | Ok (_, current') => (current < current' ≤ length tokens)%nat
  | Err _ => True
  | OutOfFuel => False
  end.

(** The trees the parser of src/main.ts can answer: no number is zero and no
    name is empty (both are falsy for [consume]). *)
Fixpoint wfTree (tree : Tree) : bool :=
  match tree with
  | Num data => negb (bool_decide (data = Finite 0))
  | Var data => negb (bool_decide (data = ""))
  | Lam prop body => negb (bool_decide (prop = "")) && wfTree body
  | App func argm => wfTree func && wfTree argm
  | Let name bind body =>
      negb (bool_decide (name = "")) && wfTree bind && wfTree body
  end.

Definition isAtomTree (tree : Tree) : bool :=
  match tree with Num _ | Var _ => true | _ => false end.

(** A tree written out in tokens: a call takes one argument, its function
    is put between parentheses unless it is a number or a name. *)
Fixpoint unparse (tree : Tree) : list Token :=
  match tree with
  | Num data => [NUMBER data]
  | Var data => [SYMBOL data]
  | Lam prop body => FUN :: SYMBOL prop :: ARROW :: unparse body
  | App func argm =>
      (if isAtomTree func then unparse func
       else LPAREN :: unparse func ++ [RPAREN])
      ++ LPAREN :: unparse argm ++ [RPAREN]
  | Let name bind body =>
      LET :: SYMBOL name :: EQUAL :: unparse bind ++ SEMICOLON :: unparse body
  end.

(** The next token does not open an argument list. *)
Definition closes (rest : list Token) : bool :=
  match rest with
  | token :: _ => negb (bool_decide (tagOf token = tLPAREN))
  | [] => false
  end.

(** The tokens of a list of arguments: the arguments written out, with a
    [COMMA] between one and the next. *)
Fixpoint argTokens (first : Tree) (others : list Tree) : list Token :=
  match others with
  | [] => unparse first
  | next :: others' => unparse first ++ COMMA :: argTokens next others'
  end.


(** The distance from one double to the next around [z], for [z] from 2^53
    on: doubles have 53 significant bits. *)
Definition spacing (z : Z) : Z := 2 ^ (Z.log2 z - 52).

(** * Properties *)

(** ** Free variables *)

Lemma elem_of_foldl_setAdd (x : string) (l acc : list string) :
  x ∈ foldl setAdd acc l ↔ x ∈ acc ∨ x ∈ l.
Proof.
  revert acc. induction l as [|y l IH]; intros acc; simpl.
  - rewrite elem_of_nil. tauto.
  - rewrite IH, elem_of_cons. unfold setAdd.
    case_bool_decide as Hy.
    + split; [intros [?|?]; tauto | intros [?|[->|?]]; tauto].
    + rewrite elem_of_app, list_elem_of_singleton. tauto.
Qed.

Lemma elem_of_newSet (x : string) (l : list string) : x ∈ newSet l ↔ x ∈ l.
Proof.
  unfold newSet. rewrite elem_of_foldl_setAdd, elem_of_nil. tauto.
Qed.

Lemma elem_of_free_Let (x : string) name bind body :
  x ∈ free (Let name bind body) ↔ (x ∈ free bind ∧ x ≠ name) ∨ x ∈ free body.
Proof.
  cbn [free]. rewrite elem_of_newSet, elem_of_app, list_elem_of_filter. tauto.
Qed.

Lemma elem_of_free_Lam (x : string) prop body :
  x ∈ free (Lam prop body) ↔ x ∈ free body ∧ x ≠ prop.
Proof.
  cbn [free]. rewrite elem_of_newSet, list_elem_of_filter. tauto.
Qed.

(** C5.  The specification has the name of a [Let] scope over its body and not over
    its bound expression.  [free] does the opposite: it removes the name from
    the free variables of the bound expression and keeps those of the body
    whole, so the name is free in [Let name bind body] exactly when it is
    free in [body].  An occurrence in [bind] alone is dropped, an occurrence
    in [body] is reported free; [Lam] filters its body as expected. *)
Theorem free_Let_filters_bind_not_body :
  (∀ name bind body,
     bool_decide (name ∈ free (Let name bind body))
     = bool_decide (name ∈ free body))
  ∧ free (Let "x" (Var "x") (Num 1)) = []
  ∧ free (Let "x" (Num 1) (Var "x")) = ["x"]
  ∧ free (Lam "x" (Var "x")) = [].
Proof.
  split_and!; try reflexivity.
  intros name bind body. apply bool_decide_ext.
  rewrite elem_of_free_Let. tauto.
Qed.

(** ** The fresh-name state *)

Lemma State_next_spec s h :
  State.next s h
  = ((State.curr h s + 1, s),
     State.mkHeap (<[s := State.curr h s + 1]> (State.own_curr h))
       (State.allocated h)).
Proof.
  unfold State.next. do 2 f_equal. unfold State.curr at 1. simpl.
  by rewrite lookup_insert_eq.
Qed.

Lemma State_curr_next s h :
  State.curr (State.next s h).2 s = State.curr h s + 1.
Proof.
  rewrite State_next_spec. unfold State.curr at 1. simpl.
  by rewrite lookup_insert_eq.
Qed.

Lemma State_curr_next_ne s s' h :
  s' ≠ s → State.curr (State.next s h).2 s' = State.curr h s'.
Proof.
  intros Hne. rewrite State_next_spec. unfold State.curr. simpl.
  by rewrite lookup_insert_ne.
Qed.

Lemma next_spec s w :
  next s w
  = ((State.curr (states w) s + 1, s),
     mkWorld (State.next s (states w)).2 (contexts w)).
Proof. unfold next. by rewrite State_next_spec. Qed.


(** C2, as amended.  [next] adds one to the counter of the state it is
    called on, in place, and answers the new count together with that same
    state; the counters of the other states are left alone.  A second call
    on the same state therefore answers the next integer. *)
Theorem next_increments_in_place (s : State.State) (h : State.Heap) :
  (State.next s h).1 = (State.curr h s + 1, s)
  ∧ (∀ s', State.curr (State.next s h).2 s'
           = if decide (s' = s) then State.curr h s + 1 else State.curr h s')
  ∧ (State.next s (State.next s h).2).1 = (State.curr h s + 2, s).
Proof.
  split_and!.
  - by rewrite State_next_spec.
  - intros s'. case_decide as Hs.
    + subst s'. apply State_curr_next.
    + by apply State_curr_next_ne.
  - rewrite (State_next_spec s (State.next s h).2). cbn [fst].
    rewrite State_curr_next. f_equal. lia.
Qed.

(** C2, as stated, fails: on a fresh state two calls of [next] answer 1 and
    then 2, not the same integer twice, and the counter read from the state
    goes from 0 to 1 to 2. *)
Lemma next_twice_differs :
  let '(s, h0) := State.makeState State.empty in
  let '((a, s1), h1) := State.next s h0 in
  let '((b, s2), h2) := State.next s h1 in
  (a = 1 ∧ b = 2 ∧ s1 = s ∧ s2 = s
   ∧ State.curr h0 s = 0 ∧ State.curr h1 s = 1 ∧ State.curr h2 s = 2)
  ∧ ¬ (a = b)
  ∧ ¬ (State.curr h1 s = State.curr h0 s).
Proof. vm_compute. split_and!; done. Qed.

(** ** Contexts *)

Section ClosureContexts.
Context {T : Type}.
Implicit Types (h : Ctx.Heap T) (c : Ctx.Context).

Lemma newMap_snoc (entries : list (string * T)) key val :
  Ctx.newMap (entries ++ [(key, val)])
  = <[key := val]> (Ctx.newMap entries).
Proof. unfold Ctx.newMap. by rewrite foldl_app. Qed.

(** In the version with a map per context, a new context holds the
    entries it was made from, the last binding of a key winning. *)
Lemma makeContext_closure_get (entries : list (string * T)) h key :
  Ctx.get (Ctx.makeContext Ctx.ClosureVersion entries h).1 key
    (Ctx.makeContext Ctx.ClosureVersion entries h).2
  = Ctx.newMap entries !! key.
Proof.
  simpl. unfold Ctx.get, Ctx.mapOf. simpl.
  rewrite lookup_app_r by lia. by rewrite Nat.sub_diag.
Qed.

Lemma newMap_lookup_last (entries : list (string * T)) key (val : T) :
  Ctx.newMap (entries ++ [(key, val)]) !! key = Some val.
Proof. rewrite newMap_snoc. apply lookup_insert_eq. Qed.

(** Making a context leaves the contexts made before as they were. *)
Lemma makeContext_closure_frame (entries : list (string * T)) h l key :
  (l < length (Ctx.own_maps h))%nat →
  Ctx.get (Ctx.OfClosure l) key
    (Ctx.makeContext Ctx.ClosureVersion entries h).2
  = Ctx.get (Ctx.OfClosure l) key h.
Proof.
  intros Hl. simpl. unfold Ctx.get, Ctx.mapOf. simpl.
  by rewrite lookup_app_l.
Qed.

(** [set] and [del] on one context are not seen through another one. *)
Lemma updMap_closure_frame f l1 l2 h key :
  l1 ≠ l2 →
  Ctx.get (Ctx.OfClosure l2) key
    (Ctx.updMap f (Ctx.OfClosure l1) h)
  = Ctx.get (Ctx.OfClosure l2) key h.
Proof.
  intros Hne. unfold Ctx.get, Ctx.mapOf, Ctx.updMap. simpl.
  by rewrite list_lookup_alter_ne.
Qed.

Lemma setAll_proto_get (entries : list (string * T)) h key val :
  Ctx.get Ctx.OfProto key
    (Ctx.setAll Ctx.OfProto (entries ++ [(key, val)]) h)
  = Some val.
Proof.
  revert h. induction entries as [|[k v] entries IH]; intros h; simpl.
  - unfold Ctx.get. simpl. apply lookup_insert_eq.
  - apply IH.
Qed.

End ClosureContexts.

(** C10.  The specification has every context independent of the ones made before.
    In the version built on [contextProto] all contexts share the map of the
    prototype: a context made from no entries still answers the binding put
    into an earlier one, and [del] through the earlier one removes it from
    the later one.  The version that closes over a map of its own keeps the
    two apart. *)
Theorem makeContext_proto_shares_map (T : Type) (h : Ctx.Heap T)
    (key : string) (val : T) :
  let '(c1, h1) := Ctx.makeContext Ctx.ProtoVersion [(key, val)] h in
  let '(c2, h2) := Ctx.makeContext Ctx.ProtoVersion [] h1 in
  Ctx.get c2 key h2 = Some val
  ∧ Ctx.get c2 key (Ctx.del c1 key h2).2 = None
  ∧ let '(c3, h3) := Ctx.makeContext Ctx.ClosureVersion [(key, val)] h in
    let '(c4, h4) := Ctx.makeContext Ctx.ClosureVersion [] h3 in
    Ctx.get c4 key h4 = None
    ∧ Ctx.get c3 key h4 = Some val
    ∧ Ctx.get c3 key (Ctx.del c4 key h4).2 = Some val.
Proof.
  simpl. unfold Ctx.get, Ctx.mapOf, Ctx.updMap. simpl.
  rewrite lookup_insert_eq, lookup_delete_eq.
  split_and!; try done.
  - by rewrite (list_lookup_middle _ [] _ _ eq_refl).
  - rewrite <- app_assoc. cbn [app].
    rewrite (list_lookup_middle _ _ _ _ eq_refl). simpl.
    unfold Ctx.newMap. simpl. apply lookup_insert_eq.
  - rewrite list_lookup_alter_ne by (rewrite length_app; simpl; lia).
    rewrite <- app_assoc. cbn [app].
    rewrite (list_lookup_middle _ _ _ _ eq_refl). simpl.
    unfold Ctx.newMap. simpl. apply lookup_insert_eq.
Qed.

(** ** Substitution *)

Lemma Expr_nested_ind (P : Expr → Prop) :
  (∀ data, P (ENum data)) →
  (∀ data, P (ERef data)) →
  (∀ data idx, P (EIdx data idx)) →
  (∀ func argm, P argm → P (EApp func argm)) →
  (∀ prop body, Forall P body → P (ECls prop body)) →
  (∀ name bind body, P bind → P body → P (ELet name bind body)) →
  ∀ expr, P expr.
Proof.
  intros HNum HRef HIdx HApp HCls HLet.
  fix IH 1. intros [data|data|data idx|func argm|prop body|name bind body].
  - apply HNum.
  - apply HRef.
  - apply HIdx.
  - apply HApp, IH.
  - apply HCls. induction body as [|e body IHbody]; constructor.
    + apply IH.
    + apply IHbody.
  - apply HLet; apply IH.
Qed.

(** [substitute] on a [Cls] runs the named traversal of its body. *)
Lemma substitute_Cls map prop body h :
  substitute map (ECls prop body) h
  = ((ECls prop (substituteAll map body h).1), (substituteAll map body h).2).
Proof.
  cbn [substitute].
  set (go := fix substituteAll (l : list Expr) (h : CtxHeap) {struct l} :=
         match l with
         | [] => ([], h)
         | e :: rest =>
             let '(e', h1) := substitute map e h in
             let '(rest', h2) := substituteAll rest h1 in (e' :: rest', h2)
         end).
  assert (Hgo : ∀ l h, go l h = substituteAll map l h).
  { induction l as [|e l IHl]; intros h0; [done |].
    simpl. destruct (substitute map e h0) as [e' h1]. by rewrite IHl. }
  rewrite Hgo. by destruct (substituteAll map body h).
Qed.

Section ContextFacts.
Context {T : Type}.
Implicit Types (h : Ctx.Heap T) (c : Ctx.Context).

Lemma get_updMap_same f c h key :
  Ctx.get c key (Ctx.updMap f c h)
  = match c with
    | Ctx.OfProto => f (Ctx.mapOf h c) !! key
    | Ctx.OfClosure l =>
        if decide (l < length (Ctx.own_maps h))%nat
        then f (Ctx.mapOf h c) !! key else None
    end.
Proof.
  unfold Ctx.get, Ctx.updMap, Ctx.mapOf.
  destruct c as [|l]; simpl; [done |].
  rewrite list_lookup_alter_eq.
  case_decide as Hl.
  - apply lookup_lt_is_Some in Hl as [m Hm]. by rewrite Hm.
  - rewrite lookup_ge_None_2 by lia. done.
Qed.

Lemma get_del_same c h key :
  Ctx.get c key (Ctx.del c key h).2 = None.
Proof.
  unfold Ctx.del. simpl. rewrite get_updMap_same.
  destruct c; [| case_decide]; try done; apply lookup_delete_eq.
Qed.

Lemma get_del_None c h key key' :
  Ctx.get c key h = None → Ctx.get c key (Ctx.del c key' h).2 = None.
Proof.
  intros Hn. unfold Ctx.del. simpl. rewrite get_updMap_same.
  unfold Ctx.get in Hn.
  destruct c; [| case_decide]; try done;
    (destruct (decide (key' = key)) as [->|];
     [apply lookup_delete_eq | by rewrite lookup_delete_ne]).
Qed.
End ContextFacts.

(** [substitute] only ever removes keys from the map it is given. *)
Lemma substitute_keeps_None map expr : ∀ h key,
  Ctx.get map key h = None →
  Ctx.get map key (substitute map expr h).2 = None.
Proof.
  induction expr as [data|data|data idx|func argm IH|prop body IH
                    |name bind body IHbind IHbody] using Expr_nested_ind;
    intros h key Hn; try done.
  - cbn [substitute]. specialize (IH h key Hn).
    by destruct (substitute map argm h).
  - rewrite substitute_Cls. simpl.
    revert h Hn. induction IH as [|e body He _ IHl]; intros h Hn; [done |].
    simpl. specialize (He h key Hn).
    destruct (substitute map e h) as [e' h1]. simpl in He.
    specialize (IHl h1 He).
    by destruct (substituteAll map body h1).
  - cbn [substitute]. specialize (IHbind h key Hn).
    destruct (substitute map bind h) as [b' h1]. simpl in IHbind.
    pose proof (get_del_None map h1 key name IHbind) as Hd.
    unfold Ctx.del in *. simpl in Hd.
    specialize (IHbody _ key Hd).
    by destruct (substitute map body _).
Qed.

(** After a [Let] has been substituted its name is gone from the map for
    good, whatever the map held for it before. *)
Lemma substitute_Let_forgets map name bind body h :
  Ctx.get map name (substitute map (ELet name bind body) h).2 = None.
Proof.
  cbn [substitute].
  destruct (substitute map bind h) as [b' h1].
  pose proof (get_del_same map h1 name) as Hd.
  unfold Ctx.del in *. simpl in Hd.
  pose proof (substitute_keeps_None map body _ name Hd).
  by destruct (substitute map body _).
Qed.


(** C3.  The specification has the removal of a [Let]-bound name confined to the body
    of that [Let].  [del] removes the name from the one map behind the
    context, so after any [Let] has been substituted the name is gone from
    the map; a later element of a [Cls] list that refers to the name is left
    as a [Ref], where the specified substitution gives the [Idx]. *)
Theorem substitute_Let_leaks_shadowing :
  (∀ map name bind body h,
     Ctx.get map name (substitute map (ELet name bind body) h).2 = None)
  ∧ ∀ version,
      let '(sub, h) :=
        Ctx.makeContext version [("x", EIdx "env1" 0)] Ctx.empty in
      let expr := ECls "f" [ELet "x" (ENum 1) (ERef "x"); ERef "x"] in
      Ctx.get sub "x" h = Some (EIdx "env1" 0)
      ∧ (substitute sub expr h).1
        = ECls "f" [ELet "x" (ENum 1) (ERef "x"); ERef "x"]
      ∧ substitute_spec {["x" := EIdx "env1" 0]} expr
        = ECls "f" [ELet "x" (ENum 1) (ERef "x"); EIdx "env1" 0]
      ∧ Ctx.get sub "x" (substitute sub expr h).2 = None.
Proof.
  split.
  - apply substitute_Let_forgets.
  - intros []; vm_compute; split_and!; reflexivity.
Qed.

(** ** Closure conversion *)

(** The conversion hands back the state object it was given, having drawn
    [draws tree] integers from it; no other state object is touched. *)
Lemma convert_state version tree : ∀ state w,
  (convert version state tree w).1.2.2 = state
  ∧ State.curr (states (convert version state tree w).2) state
    = State.curr (states w) state + draws tree
  ∧ ∀ s', s' ≠ state →
      State.curr (states (convert version state tree w).2) s'
      = State.curr (states w) s'.
Proof.
  induction tree as [data|data|prop body IH|func IHf argm IHa
                    |name bind IHb body IHe]; intros state w.
  - simpl. split_and!; [done | lia | done].
  - simpl. split_and!; [done | lia | done].
  - cbn [convert]. rewrite !next_spec. cbn [states contexts].
    destruct (Ctx.makeContext _ _ _) as [sub ch3].
    match goal with
    | |- context [convert version state body ?w3] =>
        specialize (IH state w3); destruct (convert version state body w3)
          as [[xs [res state3]] w4]
    end.
    destruct (substitute sub res (contexts w4)) as [bd ch5].
    cbn [fst snd states contexts] in *. destruct IH as (-> & Hc & Hne).
    split_and!; [done | |].
    + rewrite Hc, !State_curr_next. cbn [draws]. lia.
    + intros s' Hs'. rewrite Hne by done.
      by rewrite !State_curr_next_ne.
  - cbn [convert].
    specialize (IHf state w).
    destruct (convert version state func w) as [[funProg [expr state1]] w1].
    cbn [fst snd states contexts] in IHf. destruct IHf as (-> & Hc1 & Hne1).
    rewrite next_spec.
    match goal with
    | |- context [convert version state argm ?w2] =>
        specialize (IHa state w2); destruct (convert version state argm w2)
          as [[argProg [body state4]] w3]
    end.
    cbn [fst snd states contexts] in *. destruct IHa as (-> & Hc3 & Hne3).
    split_and!; [done | |].
    + rewrite Hc3, State_curr_next, Hc1. cbn [draws]. lia.
    + intros s' Hs'. rewrite Hne3 by done.
      rewrite State_curr_next_ne by done. by apply Hne1.
  - cbn [convert].
    specialize (IHb state w).
    destruct (convert version state bind w) as [[bindProg [expr state1]] w1].
    cbn [fst snd states contexts] in IHb. destruct IHb as (-> & Hc1 & Hne1).
    specialize (IHe state w1).
    destruct (convert version state body w1) as [[bodyProg [code state2]] w2].
    cbn [fst snd states contexts] in *. destruct IHe as (-> & Hc2 & Hne2).
    split_and!; [done | |].
    + rewrite Hc2, Hc1. cbn [draws]. lia.
    + intros s' Hs'. rewrite Hne2 by done. by apply Hne1.
Qed.

(** C6.  Converting [App func argm] converts [func] first, then draws one
    integer [k] from the state that conversion left (its count plus one),
    then converts [argm] starting from the count [k]; the result is
    [Let _k funcExpr (App _k argmExpr)], the name being the underscore
    followed by the decimal digits of [k], with the declarations of [func]
    before those of [argm].  All the states involved are the one object.
    So [(fun x => x)(fun y => y)] draws 1 and 2 for the function, 3 for the
    temporary and 4 and 5 for the argument. *)
Theorem convert_App_order version state func argm w :
  let '((funProg, (expr, state1)), w1) := convert version state func w in
  let '((k, state3), w2) := next state1 w1 in
  let '((argProg, (body, state4)), w3) := convert version state3 argm w2 in
  convert version state (App func argm) w
  = ((funProg ++ argProg,
      (ELet ("_" +:+ pretty k) expr (EApp ("_" +:+ pretty k) body), state4)),
     w3)
  ∧ k = State.curr (states w1) state1 + 1
  ∧ k = State.curr (states w) state + draws func + 1
  ∧ State.curr (states w2) state3 = k
  ∧ State.curr (states w3) state4 = k + draws argm
  ∧ state1 = state ∧ state3 = state ∧ state4 = state
  ∧ convertCls version (App (Lam "x" (Var "x")) (Lam "y" (Var "y")))
    = [TDecl 0 "cls2" "env1" "x" (ERef "x");
       TDecl 0 "cls5" "env4" "y" (ERef "y");
       TMain (ELet "_3" (ECls "cls2" []) (EApp "_3" (ECls "cls5" [])))].
Proof.
  pose proof (convert_state version func state w) as Hf.
  cbn [convert].
  destruct (convert version state func w) as [[funProg [expr state1]] w1].
  cbn [fst snd states contexts] in Hf. destruct Hf as (-> & Hc1 & _).
  rewrite next_spec.
  match goal with
  | |- context [convert version state argm ?w2] =>
      pose proof (convert_state version argm state w2) as Ha;
      destruct (convert version state argm w2) as [[argProg [body state4]] w3]
  end.
  cbn [fst snd states contexts] in Ha. destruct Ha as (-> & Hc3 & _).
  cbn [states] in *. unfold template.
  rewrite State_curr_next in *.
  split_and!; try done; try lia.
  by destruct version.
Qed.

(** C1.  The specification has no [Ref] left in a hoisted body except to the
    parameter and to names bound by an enclosing [Let].  For
    [fun y => (let x = 1; x)(x)] the free variable [x] is captured, yet the
    hoisted body still holds [Ref x] in the argument position, outside any
    [Let] on [x]: the inner [let x] removed [x] from the substitution map
    for good. *)
Theorem convertCls_leaves_free_ref (version : Ctx.Version) :
  Parser.parser
    [FUN; SYMBOL "y"; ARROW; LPAREN; LET; SYMBOL "x"; EQUAL; NUMBER 1;
     SEMICOLON; SYMBOL "x"; RPAREN; LPAREN; SYMBOL "x"; RPAREN; EOF]
  = Ok leakyLambda
  ∧ free leakyLambda = ["x"]
  ∧ convertCls version leakyLambda
    = [TDecl 1 "cls2" "env1" "y"
         (ELet "_3" (ELet "x" (ENum 1) (ERef "x")) (EApp "_3" (ERef "x")));
       TMain (ECls "cls2" [ERef "x"])]
  ∧ forallb declResolved (convertCls version leakyLambda) = false.
Proof. destruct version; vm_compute; split_and!; reflexivity. Qed.

(** With the contexts that share the map of the prototype, the entries of
    an inner lambda are still in the map when the body of the outer one is
    substituted: in [fun x => fun y => x] the outer function reads the
    environment of the inner one. *)
Lemma convertCls_proto_reads_foreign_env :
  convertCls Ctx.ProtoVersion (Lam "x" (Lam "y" (Var "x")))
  = [TDecl 1 "cls4" "env3" "y" (EIdx "env3" 0);
     TDecl 0 "cls2" "env1" "x" (ECls "cls4" [EIdx "env3" 0]);
     TMain (ECls "cls2" [])]
  ∧ convertCls Ctx.ClosureVersion (Lam "x" (Lam "y" (Var "x")))
    = [TDecl 1 "cls4" "env3" "y" (EIdx "env3" 0);
       TDecl 0 "cls2" "env1" "x" (ECls "cls4" [ERef "x"]);
       TMain (ECls "cls2" [])].
Proof. vm_compute. split; reflexivity. Qed.

(** ** The parser *)

(** C4.  The specification has the parser fail on an argument list whose closing
    parenthesis is missing.  [parseCall] only tries to match [RPAREN] and
    ignores the answer: the tokens of [f(1] parse to the same tree as those
    of [f(1)].  [parseParens], which consumes its [RPAREN], does fail on
    [(1]. *)
Theorem parseCall_accepts_missing_RPAREN :
  Scanner.scanner "f(1" = Ok [SYMBOL "f"; LPAREN; NUMBER 1; EOF]
  ∧ Parser.parser [SYMBOL "f"; LPAREN; NUMBER 1; EOF]
    = Ok (App (Var "f") (Num 1))
  ∧ Parser.parser [SYMBOL "f"; LPAREN; NUMBER 1; RPAREN; EOF]
    = Ok (App (Var "f") (Num 1))
  ∧ Parser.parser [LPAREN; NUMBER 1; EOF]
    = Err ("Expected token with tag " +:+ Parser.quoted "RPAREN"
           +:+ ", but got " +:+ Parser.quoted "EOF").
Proof. vm_compute. split_and!; reflexivity. Qed.

(** ** Code generation *)

(** The other revision of [codegenCls] is the specified one. *)
Lemma codegenCls_other_revision build prop body :
  codegenExpr OtherRevision build (ECls prop body)
  = codegenCls_spec OtherRevision build prop body.
Proof. reflexivity. Qed.

(** C7.  The specification has the captured expressions rendered under the identity
    continuation and the outer continuation applied once.  [codegenCls] of
    src/main.ts renders every captured expression with the outer
    continuation as well, so under [exprReturn] a [return] statement lands
    inside the array literal; the other revision renders them as specified. *)
Theorem codegenCls_builds_captured :
  (∀ build prop body,
     codegenExpr MainTs build (ECls prop body)
     = build ("build_cls(" +:+ prop +:+ ", (struct val *["
              +:+ pretty (length body) +:+ "]){ "
              +:+ join ", " (map (codegenExpr MainTs build) body) +:+ " })"))
  ∧ codegenExpr MainTs exprReturn (ECls "cls2" [ERef "x"])
    = "return build_cls(cls2, (struct val *[1]){ return x; });"
  ∧ codegenCls_spec MainTs exprReturn "cls2" [ERef "x"]
    = "return build_cls(cls2, (struct val *[1]){ x });"
  ∧ codegenExpr OtherRevision exprReturn (ECls "cls2" [ERef "x"])
    = "return build_cls(cls2, (struct val *[1]){ x });".
Proof. split_and!; reflexivity. Qed.

(** ** The runtime *)

Lemma append_empty_r (s : string) : s +:+ "" = s.
Proof.
  induction s as [|a s IH]; [done |].
  change (String a (s +:+ "") = String a s). by rewrite IH.
Qed.

Lemma append_assoc (s t u : string) : (s +:+ t) +:+ u = s +:+ t +:+ u.
Proof.
  induction s as [|a s IH]; [done |].
  change (String a ((s +:+ t) +:+ u) = String a (s +:+ t +:+ u)).
  by rewrite IH.
Qed.

Lemma append_not_empty (s t : string) : t ≠ "" → s +:+ t ≠ "".
Proof. destruct s; [done | discriminate]. Qed.

Lemma append_eq_self (s t : string) : s +:+ t = s → t = "".
Proof. intros Heq. apply (inj (String.app s)). by rewrite append_empty_r. Qed.

(** What [print_val] writes for a closure: the placeholder line, and then
    the line of the [INT_T] group, which control falls into. *)
Lemma print_val_closure (int_of_code : nat → Z) (code : nat) (env : list nat) :
  Driver.print_val int_of_code (Driver.build_cls code env)
  = "<#closure>" +:+ Driver.newline
    +:+ pretty (int_of_code code) +:+ Driver.newline.
Proof.
  cbv [Driver.print_val Driver.switch Driver.enter Driver.matches
       Driver.val_tag_eqb Driver.tag Driver.build_cls Driver.run fst
       Driver.c_integer Driver.c].
  by rewrite append_empty_r, append_assoc.
Qed.

(** C8.  The specification has [print_val] write the placeholder line alone for a
    closure.  The [CLOSURE_T] group of the [switch] has no [break], so
    control falls into the [INT_T] group: a closure is printed as the
    placeholder line followed by a line with the [integer] member of the
    union, which is never just the placeholder line.  An integer is printed
    as its decimal representation and a newline. *)
Theorem print_val_closure_falls_through (int_of_code : nat → Z)
    (code : nat) (env : list nat) (n : Z) :
  Driver.print_val int_of_code (Driver.build_cls code env)
  = "<#closure>" +:+ Driver.newline
    +:+ pretty (int_of_code code) +:+ Driver.newline
  ∧ Driver.print_val int_of_code (Driver.build_cls code env)
    ≠ "<#closure>" +:+ Driver.newline
  ∧ Driver.print_val int_of_code (Driver.build_int n)
    = pretty n +:+ Driver.newline.
Proof.
  split_and!.
  - apply print_val_closure.
  - rewrite print_val_closure. intros Heq.
    apply (inj (String.app _)), append_eq_self in Heq.
    revert Heq. apply append_not_empty. discriminate.
  - cbv [Driver.print_val Driver.switch Driver.enter Driver.matches
         Driver.val_tag_eqb Driver.tag Driver.build_int Driver.run fst
         Driver.c_integer Driver.c Driver.is_default].
    by rewrite append_empty_r.
Qed.

(** ** The scanner *)

Section ScannerFacts.
Import Scanner.
Variable source : list ascii.

Lemma isDigit_zero : isDigit zero = false.
Proof. reflexivity. Qed.

Lemma peek_app (pre rest : list ascii) :
  peek (pre ++ rest) (length pre) = hd zero rest.
Proof.
  unfold peek. rewrite length_app.
  destruct rest as [|c rest]; simpl.
  - case_decide; [done | lia].
  - case_decide; [lia |].
    rewrite lookup_app_r by lia. by rewrite Nat.sub_diag.
Qed.

Lemma advanceWhile_ge p fuel pos :
  (pos ≤ advanceWhile source p fuel pos)%nat.
Proof.
  revert pos. induction fuel as [|fuel IH]; intros pos; simpl; [lia |].
  destruct (p _); [| lia]. specialize (IH (S pos)). lia.
Qed.

Lemma advanceWhile_le p fuel pos :
  (advanceWhile source p fuel pos ≤ pos + fuel)%nat.
Proof.
  revert pos. induction fuel as [|fuel IH]; intros pos; simpl; [lia |].
  destruct (p _); [| lia]. specialize (IH (S pos)). lia.
Qed.

Lemma number_ge start_pos pos : (pos ≤ (number source start_pos pos).1)%nat.
Proof.
  unfold number; simpl.
  pose proof (advanceWhile_ge isDigit (left source pos) pos).
  destruct (_ && _); [| done].
  pose proof (advanceWhile_ge isDigit
    (left source (S (advanceWhile source isDigit (left source pos) pos)))
    (S (advanceWhile source isDigit (left source pos) pos))).
  lia.
Qed.

Lemma identifier_ge start_pos pos :
  (pos ≤ (identifier source start_pos pos).1)%nat.
Proof.
  unfold identifier.
  pose proof (advanceWhile_ge isAlphaNumeric (left source pos) pos).
  by destruct (keywords _).
Qed.

Lemma matchToken_ge expected pos :
  (pos ≤ (matchToken source expected pos).2)%nat.
Proof.
  unfold matchToken. case_decide; simpl; [lia |].
  case_bool_decide; simpl; lia.
Qed.

(** Any bound that covers the rest of the source gives the same scan. *)
Lemma scanLoop_fuel fuel1 fuel2 pos tokens :
  (left source pos ≤ fuel1)%nat → (left source pos ≤ fuel2)%nat →
  scanLoop source fuel1 pos tokens = scanLoop source fuel2 pos tokens.
Proof.
  unfold left.
  revert fuel2 pos tokens.
  induction fuel1 as [|fuel1 IH]; intros fuel2 pos tokens H1 H2.
  - destruct fuel2; cbn [scanLoop]; case_decide; try done; lia.
  - destruct fuel2 as [|fuel2]; cbn [scanLoop]; case_decide; try done; try lia.
    pose proof (number_ge pos (S pos)).
    pose proof (identifier_ge pos (S pos)).
    pose proof (matchToken_ge ">" (S pos)).
    destruct (number source pos (S pos)) as [pn tn].
    destruct (identifier source pos (S pos)) as [pi ti].
    destruct (matchToken source ">" (S pos)) as [m pm].
    simpl in *.
    repeat (match goal with
            | |- context [if ?b then _ else _] => destruct b
            end; try (apply IH; lia); try done).
Qed.

(** The scanner does not run out of rounds. *)
Lemma scanLoop_not_OutOfFuel fuel pos tokens :
  (left source pos ≤ fuel)%nat → scanLoop source fuel pos tokens ≠ OutOfFuel.
Proof.
  unfold left.
  revert pos tokens.
  induction fuel as [|fuel IH]; intros pos tokens H1; cbn [scanLoop];
    case_decide; try done; try lia.
  pose proof (number_ge pos (S pos)).
  pose proof (identifier_ge pos (S pos)).
  pose proof (matchToken_ge ">" (S pos)).
  destruct (number source pos (S pos)) as [pn tn].
  destruct (identifier source pos (S pos)) as [pi ti].
  destruct (matchToken source ">" (S pos)) as [m pm].
  simpl in *.
  repeat (match goal with
          | |- context [if ?b then _ else _] => destruct b
          end; try (apply IH; lia); try done).
Qed.

End ScannerFacts.

Section NumberFacts.
Import Scanner.

Lemma peekNext_app (pre : list ascii) (ch : ascii) (rest : list ascii) :
  peekNext (pre ++ ch :: rest) (length pre) = hd zero rest.
Proof.
  unfold peekNext. rewrite length_app. simpl.
  destruct rest as [|c2 rest]; simpl.
  - case_decide; [done | lia].
  - case_decide; [lia |].
    rewrite lookup_app_r by lia.
    by replace (length pre + 1 - length pre)%nat with 1%nat by lia.
Qed.

Lemma advanceWhile_run (ds pre tail : list ascii) (fuel : nat) :
  Forall (λ ch, isDigit ch = true) ds →
  isDigit (hd zero tail) = false →
  (length ds ≤ fuel)%nat →
  advanceWhile (pre ++ ds ++ tail) isDigit fuel (length pre)
  = (length pre + length ds)%nat.
Proof.
  revert pre fuel. induction ds as [|d ds IH]; intros pre fuel Hds Ht Hf.
  - simpl. destruct fuel; simpl; [lia |].
    rewrite peek_app, Ht. lia.
  - apply Forall_cons_1 in Hds as [Hd Hds].
    destruct fuel as [|fuel]; simpl in Hf; [lia |].
    cbn [advanceWhile]. rewrite peek_app. simpl hd. rewrite Hd.
    replace (pre ++ (d :: ds) ++ tail) with ((pre ++ [d]) ++ ds ++ tail)
      by (by rewrite <- app_assoc).
    replace (S (length pre)) with (length (pre ++ [d]))
      by (rewrite length_app; simpl; lia).
    rewrite IH by (done || lia).
    rewrite length_app. simpl. lia.
Qed.

Lemma parseDigits_run (ds tail : list ascii) (acc : Z) :
  Forall (λ ch, isDigit ch = true) ds →
  isDigit (hd zero tail) = false →
  parseDigits acc (ds ++ tail)
  = foldl (λ acc ch, 10 * acc + Z.of_N (code ch - code "0")) acc ds.
Proof.
  revert acc. induction ds as [|d ds IH]; intros acc Hds Ht.
  - simpl. destruct tail as [|t tail]; [done |].
    simpl in *. by rewrite Ht.
  - apply Forall_cons_1 in Hds as [Hd Hds]. simpl. rewrite Hd. by apply IH.
Qed.

Lemma substring_app (pre lit rest : list ascii) :
  substring (pre ++ lit ++ rest) (length pre) (length pre + length lit) = lit.
Proof.
  unfold substring. rewrite drop_app_length.
  replace (length pre + length lit - length pre)%nat with (length lit) by lia.
  by rewrite take_app_length.
Qed.

(** [number], called after the first digit was consumed, stops right after
    the literal and pushes the double nearest to its integer part. *)
Lemma number_literal (pre ds : list ascii) (fs : option (list ascii))
    (rest : list ascii) :
  digits ds →
  match fs with Some fs => digits fs | None => True end →
  endsLiteral fs rest = true →
  number (pre ++ literal ds fs ++ rest) (length pre) (S (length pre))
  = ((length pre + length (literal ds fs))%nat,
     NUMBER (toDouble (decimalValue ds))).
Proof.
  intros [Hne Hds] Hfs Hend.
  destruct ds as [|d ds]; [done |]. clear Hne.
  apply Forall_cons_1 in Hds as [Hd Hds].
  apply andb_true_iff in Hend as [Hrest Hdot].
  apply negb_true_iff in Hrest.
  unfold number.
  set (source := pre ++ literal (d :: ds) fs ++ rest).
  assert (Hpos1 : advanceWhile source isDigit (left source (S (length pre)))
                    (S (length pre)) = (length pre + S (length ds))%nat).
  { unfold source, literal.
    replace (pre ++ ((d :: ds) ++ match fs with
                                  | Some fs0 => "."%char :: fs0
                                  | None => []
                                  end) ++ rest)
      with ((pre ++ [d]) ++ ds ++ (match fs with
                                   | Some fs0 => "."%char :: fs0
                                   | None => []
                                   end ++ rest))
      by (rewrite <- !app_assoc; done).
    replace (S (length pre)) with (length (pre ++ [d]))
      by (rewrite length_app; simpl; lia).
    rewrite advanceWhile_run; [rewrite length_app; simpl; lia | done | |].
    - destruct fs; [done | by simpl].
    - unfold left. rewrite !length_app. lia. }
  rewrite Hpos1.
  destruct fs as [fs|].
  - destruct Hfs as [Hfne Hfs].
    destruct fs as [|f fs]; [done |].
    assert (Hsrc : source = (pre ++ d :: ds) ++ "."%char :: (f :: fs) ++ rest).
    { unfold source, literal. by rewrite <- !app_assoc. }
    assert (Hlen : (length pre + S (length ds))%nat = length (pre ++ d :: ds)).
    { rewrite length_app. simpl. lia. }
    rewrite Hlen, Hsrc, peek_app, peekNext_app.
    simpl hd. apply Forall_cons_1 in Hfs as [Hf Hfs]. rewrite Hf.
    rewrite bool_decide_eq_true_2 by done. simpl andb. cbv iota.
    replace ((pre ++ d :: ds) ++ "."%char :: (f :: fs) ++ rest)
      with (((pre ++ d :: ds) ++ ["."%char]) ++ (f :: fs) ++ rest)
      by (by rewrite <- !app_assoc).
    replace (S (length (pre ++ d :: ds)))
      with (length ((pre ++ d :: ds) ++ ["."%char]))
      by (rewrite (length_app _ ["."%char]); simpl; lia).
    rewrite advanceWhile_run;
      [ | by constructor | done
        | unfold left; rewrite !length_app; simpl; lia ].
    f_equal.
    + unfold literal. rewrite !length_app. simpl. lia.
    + f_equal.
      replace (((pre ++ d :: ds) ++ ["."%char]) ++ (f :: fs) ++ rest)
        with (pre ++ ((d :: ds) ++ "."%char :: f :: fs) ++ rest)
        by (rewrite <- !app_assoc; done).
      replace (length ((pre ++ d :: ds) ++ ["."%char]) + length (f :: fs))%nat
        with (length pre + length ((d :: ds) ++ "."%char :: f :: fs))%nat
        by (rewrite !length_app; simpl; lia).
      rewrite substring_app. unfold parseInt.
      rewrite parseDigits_run; [done | by constructor | done].
  - assert (Hsrc : source = (pre ++ d :: ds) ++ rest).
    { unfold source, literal. by rewrite app_nil_r, <- app_assoc. }
    assert (Hlen : (length pre + S (length ds))%nat = length (pre ++ d :: ds)).
    { rewrite length_app. simpl. lia. }
    rewrite Hlen, Hsrc, peek_app.
    apply negb_true_iff in Hdot.
    assert (Hstop : bool_decide (hd zero rest = "."%char)
                    && isDigit (peekNext ((pre ++ d :: ds) ++ rest)
                                  (length (pre ++ d :: ds))) = false).
    { destruct rest as [|r rest]; [done |].
      rewrite peekNext_app. exact Hdot. }
    rewrite Hstop. f_equal.
    + unfold literal. rewrite app_nil_r. done.
    + f_equal. rewrite <- Hlen.
      replace ((pre ++ d :: ds) ++ rest) with (pre ++ (d :: ds) ++ rest)
        by (by rewrite <- app_assoc).
      replace (length pre + S (length ds))%nat
        with (length pre + length (d :: ds))%nat by done.
      rewrite substring_app. unfold parseInt.
      pose proof (parseDigits_run (d :: ds) [] 0) as Hp.
      rewrite app_nil_r in Hp. rewrite Hp; [done | by constructor | done].
Qed.

(** A round of the loop that starts on a digit calls [number]. *)
Lemma scanLoop_digit (source : list ascii) (fuel pos : nat)
    (tokens : list Token) (ch : ascii) :
  source !! pos = Some ch → isDigit ch = true →
  scanLoop source (S fuel) pos tokens
  = scanLoop source fuel (number source pos (S pos)).1
      (tokens ++ [(number source pos (S pos)).2]).
Proof.
  intros Hch Hd. cbn [scanLoop].
  apply lookup_lt_Some in Hch as Hlt.
  case_decide; [| lia].
  rewrite Hch. simpl default.
  rewrite !bool_decide_eq_false_2 by (intros ->; done).
  simpl orb. cbv iota. rewrite Hd.
  by destruct (number source pos (S pos)).
Qed.

End NumberFacts.

(** Up to 2^53 every integer is a double. *)
Lemma toDouble_exact (z : Z) : z ≤ 2 ^ 53 → toDouble z = Finite z.
Proof.
  intros Hz. unfold toDouble.
  destruct (Z.ltb_spec z (2 ^ 53)) as [|Hge]; [done |].
  assert (z = 2 ^ 53) as -> by lia. reflexivity.
Qed.

Lemma scanFrom_literal (pre ds : list ascii) (fs : option (list ascii))
    (rest : list ascii) (tokens : list Token) :
  digits ds →
  match fs with Some fs => digits fs | None => True end →
  endsLiteral fs rest = true →
  Scanner.scanFrom (pre ++ literal ds fs ++ rest) (length pre) tokens
  = Scanner.scanFrom (pre ++ literal ds fs ++ rest)
      (length pre + length (literal ds fs))
      (tokens ++ [NUMBER (toDouble (decimalValue ds))]).
Proof.
  intros Hds Hfs Hend.
  pose proof (number_literal pre ds fs rest Hds Hfs Hend) as Hnum.
  destruct Hds as [Hne Hds].
  destruct ds as [|d ds]; [done |].
  apply Forall_cons_1 in Hds as [Hd _].
  set (source := pre ++ literal (d :: ds) fs ++ rest) in *.
  assert (Hch : source !! length pre = Some d).
  { unfold source, literal. rewrite <- !app_assoc. simpl.
    by apply list_lookup_middle. }
  unfold Scanner.scanFrom.
  assert (Hleft : Scanner.left source (length pre)
                  = S (Scanner.left source (S (length pre)))).
  { apply lookup_lt_Some in Hch. unfold Scanner.left. lia. }
  rewrite Hleft, (scanLoop_digit source _ _ _ d Hch Hd), Hnum. cbn [fst snd].
  apply scanLoop_fuel; unfold Scanner.left; [| lia].
  unfold literal. rewrite !length_app. simpl. lia.
Qed.

(** The literal alone scans to its one token and [EOF]. *)
Lemma scanner_literal (ds : list ascii) (fs : option (list ascii)) :
  digits ds →
  match fs with Some fs => digits fs | None => True end →
  Scanner.scanner (string_of_list_ascii (literal ds fs))
  = Ok [NUMBER (toDouble (decimalValue ds)); EOF].
Proof.
  intros Hds Hfs.
  unfold Scanner.scanner. rewrite list_ascii_of_string_of_list_ascii.
  pose proof (scanFrom_literal [] ds fs [] [] Hds Hfs) as Hs.
  rewrite app_nil_r in Hs. simpl in Hs. rewrite Hs by (by destruct fs).
  unfold Scanner.scanFrom, Scanner.left. rewrite Nat.sub_diag. simpl.
  case_decide; [lia | done].
Qed.

(** C9.  Let the source hold, from the position where a token starts, a run
    of digits, optionally followed by ['.'] and a second run of digits, and
    let the text after that not continue the literal.  If the value of the
    first run is at most 2^53, then the scan from that position is the scan
    from the position right after the literal with exactly one more token,
    [NUMBER] of the value of the first run; the scan does not stop for lack
    of rounds; and the literal alone scans to that token followed by [EOF].
    The bound is needed: [parseInt] returns a double, and 2^53 is the last
    integer up to which every integer is one. *)
Theorem number_scans_integer_part (pre ds : list ascii)
    (fs : option (list ascii)) (rest : list ascii) (tokens : list Token) :
  digits ds →
  match fs with Some fs => digits fs | None => True end →
  endsLiteral fs rest = true →
  decimalValue ds ≤ 2 ^ 53 →
  Scanner.scanFrom (pre ++ literal ds fs ++ rest) (length pre) tokens
  = Scanner.scanFrom (pre ++ literal ds fs ++ rest)
      (length pre + length (literal ds fs)) (tokens ++ [NUMBER (decimalValue ds)])
  ∧ Scanner.scanFrom (pre ++ literal ds fs ++ rest) (length pre) tokens
    ≠ OutOfFuel
  ∧ Scanner.scanner (string_of_list_ascii (literal ds fs))
    = Ok [NUMBER (decimalValue ds); EOF].
Proof.
  intros Hds Hfs Hend Hle. rewrite <- (toDouble_exact _ Hle). split_and!.
  - by apply scanFrom_literal.
  - by apply scanLoop_not_OutOfFuel.
  - by apply scanner_literal.
Qed.

Lemma number_scans_integer_part_witness :
  Scanner.scanFrom (list_ascii_of_string "x = 3.75;") 4 [SYMBOL "x"; EQUAL]
  = Scanner.scanFrom (list_ascii_of_string "x = 3.75;") 8
      [SYMBOL "x"; EQUAL; NUMBER 3]
  ∧ Scanner.scanner "3.75" = Ok [NUMBER 3; EOF].
Proof.
  pose proof (number_scans_integer_part
    (list_ascii_of_string "x = ") (list_ascii_of_string "3")
    (Some (list_ascii_of_string "75")) (list_ascii_of_string ";")
    [SYMBOL "x"; EQUAL]) as H.
  destruct H as (H1 & _ & H3).
  - split; [done | repeat constructor].
  - split; [done | repeat constructor].
  - reflexivity.
  - vm_compute. discriminate.
  - split; [exact H1 | exact H3].
Defined.

(** C9, as stated for every literal, fails above 2^53: the literals
    [9007199254740993] and [9007199254740993.5] are runs of digits (the
    second with a fraction) whose integer part is 2^53 + 1; each scans to
    one [NUMBER] token, whose value is 2^53 and not the integer part. *)
Theorem number_rounds_above_2_53 :
  let ds := list_ascii_of_string "9007199254740993" in
  let fs := list_ascii_of_string "5" in
  digits ds ∧ digits fs
  ∧ endsLiteral None [] = true ∧ endsLiteral (Some fs) [] = true
  ∧ string_of_list_ascii (literal ds None) = "9007199254740993"
  ∧ string_of_list_ascii (literal ds (Some fs)) = "9007199254740993.5"
  ∧ decimalValue ds = 9007199254740993
  ∧ Scanner.scanner "9007199254740993"
    = Ok [NUMBER 9007199254740992; EOF]
  ∧ Scanner.scanner "9007199254740993.5"
    = Ok [NUMBER 9007199254740992; EOF]
  ∧ Scanner.scanner (string_of_list_ascii (literal ds None))
    ≠ Ok [NUMBER (decimalValue ds); EOF]
  ∧ Scanner.scanner (string_of_list_ascii (literal ds (Some fs)))
    ≠ Ok [NUMBER (decimalValue ds); EOF].
Proof.
  cbv zeta. split_and!.
  - split; [done | repeat constructor].
  - split; [done | repeat constructor].
  - reflexivity.
  - reflexivity.
  - reflexivity.
  - reflexivity.
  - reflexivity.
  - vm_compute. reflexivity.
  - vm_compute. reflexivity.
  - vm_compute. intros [=].
  - vm_compute. intros [=].
Qed.

(** * Further properties *)

(** ** Free variables, continued *)

Lemma NoDup_foldl_setAdd (l acc : list string) :
  NoDup acc → NoDup (foldl setAdd acc l).
Proof.
  revert acc. induction l as [|x l IH]; intros acc Hacc; [done |].
  simpl. apply IH. unfold setAdd. case_bool_decide as Hx; [done |].
  apply list.NoDup_app. split_and!; [done | | apply NoDup_singleton].
  intros y Hy Hy'. apply list_elem_of_singleton in Hy'. by subst.
Qed.

Lemma NoDup_newSet (l : list string) : NoDup (newSet l).
Proof. apply NoDup_foldl_setAdd, NoDup_nil_2. Qed.

(** X1.  The free variables of a tree come without repetition: [free]
    answers a set. *)
Theorem free_NoDup (tree : Tree) : NoDup (free tree).
Proof. destruct tree; apply NoDup_newSet. Qed.

(** X2.  The parameter of a lambda is not free in the lambda, and every
    other free variable of the body stays free. *)
Theorem free_Lam_binds_param (prop : Prop_) (body : Tree) (x : string) :
  bool_decide (prop ∈ free (Lam prop body)) = false
  ∧ bool_decide (x ∈ free (Lam prop body))
    = bool_decide (x ∈ free body) && negb (bool_decide (x = prop)).
Proof.
  split.
  - apply bool_decide_eq_false_2. rewrite elem_of_free_Lam. tauto.
  - rewrite <- bool_decide_not, <- bool_decide_and.
    apply bool_decide_ext, elem_of_free_Lam.
Qed.

(** ** The fresh-name state, continued *)


(** ** Contexts, continued *)

Section ContextMaps.
Context {T : Type}.
Implicit Types (h : Ctx.Heap T) (c : Ctx.Context) (m : gmap string T).
Implicit Types (entries : list (string * T)).

Local Abbreviation ins :=
  (λ (m : gmap string T) (e : string * T), <[e.1 := e.2]> m).

Lemma foldl_ins_notin entries m key :
  key ∉ entries.*1 → foldl ins m entries !! key = m !! key.
Proof.
  revert m. induction entries as [|[k v] entries IH]; intros m Hk; [done |].
  simpl in *. apply not_elem_of_cons in Hk as [Hne Hk].
  rewrite IH by done. simpl. by rewrite lookup_insert_ne.
Qed.

Lemma foldl_ins_overlay entries m key :
  foldl ins m entries !! key
  = match foldl ins ∅ entries !! key with
    | Some v => Some v
    | None => m !! key
    end.
Proof.
  revert m. induction entries as [|[k v] entries IH] using rev_ind; intros m.
  - simpl. by rewrite lookup_empty.
  - rewrite !foldl_app. simpl.
    destruct (decide (k = key)) as [->|Hne].
    + by rewrite !lookup_insert_eq.
    + rewrite !lookup_insert_ne by done. apply IH.
Qed.

Lemma foldl_ins_is_Some entries key :
  is_Some (foldl ins ∅ entries !! key) ↔ key ∈ entries.*1.
Proof.
  induction entries as [|[k v] entries IH] using rev_ind.
  - simpl. rewrite lookup_empty, elem_of_nil. split; [by intros [? ?] | done].
  - rewrite foldl_app, fmap_app, elem_of_app. simpl.
    rewrite list_elem_of_singleton.
    destruct (decide (k = key)) as [->|Hne].
    + rewrite lookup_insert_eq. split; [by right | by eexists].
    + rewrite lookup_insert_ne by done. rewrite IH.
      split; [tauto | intros [?|?]; [done | congruence]].
Qed.

Lemma setAll_proto entries h :
  Ctx.setAll Ctx.OfProto entries h
  = Ctx.mkHeap (foldl ins (Ctx.proto_map h) entries) (Ctx.own_maps h).
Proof.
  revert h. induction entries as [|[k v] entries IH]; intros h.
  - by destruct h.
  - simpl. by rewrite IH.
Qed.

Lemma mapOf_updMap f c h :
  validCtx h c → Ctx.mapOf (Ctx.updMap f c h) c = f (Ctx.mapOf h c).
Proof.
  destruct c as [|l]; simpl; [done |]. intros Hl.
  rewrite list_lookup_alter_eq.
  apply lookup_lt_is_Some in Hl as [m Hm]. by rewrite Hm.
Qed.

Lemma mapOf_updMap_invalid f l h :
  ¬ validCtx h (Ctx.OfClosure l) →
  Ctx.mapOf (Ctx.updMap f (Ctx.OfClosure l) h) (Ctx.OfClosure l) = ∅.
Proof.
  simpl. intros Hl. rewrite list_lookup_alter_eq.
  by rewrite lookup_ge_None_2 by lia.
Qed.

End ContextMaps.

(** X4.  [set] followed by [get] on a context of the heap: the key just set
    answers the value, every other key answers what it did before; the
    context handed back is the one [set] was called on. *)
Theorem set_then_get {T} (h : Ctx.Heap T) (c : Ctx.Context) (key : string)
    (val : T) :
  validCtx h c →
  (Ctx.set c key val h).1 = c
  ∧ ∀ key',
      Ctx.get c key' (Ctx.set c key val h).2
      = if decide (key' = key) then Some val else Ctx.get c key' h.
Proof.
  intros Hc. split; [done |]. intros key'.
  unfold Ctx.get, Ctx.set. cbn [snd]. rewrite mapOf_updMap by done.
  case_decide as Hk.
  - subst. apply lookup_insert_eq.
  - by rewrite lookup_insert_ne.
Qed.

Lemma set_then_get_witness :
  let h := (Ctx.makeContext Ctx.ClosureVersion [("a", 1)] Ctx.empty).2 in
  Ctx.get (Ctx.OfClosure 0) "b" (Ctx.set (Ctx.OfClosure 0) "b" 2 h).2 = Some 2
  ∧ Ctx.get (Ctx.OfClosure 0) "a" (Ctx.set (Ctx.OfClosure 0) "b" 2 h).2
    = Some 1.
Proof.
  pose proof (set_then_get
    (Ctx.makeContext Ctx.ClosureVersion [("a", 1)] Ctx.empty).2
    (Ctx.OfClosure 0) "b" 2) as H.
  destruct H as [_ H]; [simpl; lia |].
  split; [exact (H "b") | exact (H "a")].
Defined.

Lemma get_del {T} (h : Ctx.Heap T) (c : Ctx.Context) (key key' : string) :
  Ctx.get c key' (Ctx.del c key h).2
  = if decide (key' = key) then None else Ctx.get c key' h.
Proof.
  unfold Ctx.get, Ctx.del. cbn [snd].
  destruct c as [|l].
  - rewrite mapOf_updMap by done.
    case_decide as Hk; [subst; apply lookup_delete_eq |].
    by rewrite lookup_delete_ne.
  - destruct (decide (l < length (Ctx.own_maps h))%nat) as [Hl|Hl].
    + rewrite mapOf_updMap by done.
      case_decide as Hk; [subst; apply lookup_delete_eq |].
      by rewrite lookup_delete_ne.
    + rewrite mapOf_updMap_invalid by done. rewrite lookup_empty.
      case_decide; [done |]. simpl.
      by rewrite lookup_ge_None_2 by lia.
Qed.

(** X5.  [del] followed by [get]: the deleted key is missing, every other
    key answers what it did before; deleting a key that is missing changes
    no answer. *)
Theorem del_then_get {T} (h : Ctx.Heap T) (c : Ctx.Context) (key : string) :
  (Ctx.del c key h).1 = c
  ∧ ∀ key',
      Ctx.get c key' (Ctx.del c key h).2
      = if decide (key' = key) then None else Ctx.get c key' h.
Proof. split; [done |]. intros key'. apply get_del. Qed.

(** X6.  A context made by the closure version from a list of entries holds
    exactly the keys of the list, and a key answers its last binding in the
    list. *)
Theorem makeContext_closure_last_binding {T} (h : Ctx.Heap T)
    (before after : list (string * T)) (key : string) (val : T) :
  key ∉ after.*1 →
  let entries := before ++ (key, val) :: after in
  let '(c, h') := Ctx.makeContext Ctx.ClosureVersion entries h in
  Ctx.get c key h' = Some val
  ∧ ∀ key', bool_decide (is_Some (Ctx.get c key' h'))
            = bool_decide (key' ∈ entries.*1).
Proof.
  intros Hk entries. unfold entries.
  pose proof (makeContext_closure_get (before ++ (key, val) :: after) h)
    as Hget.
  destruct (Ctx.makeContext _ _ _) as [c h']. cbn [fst snd] in Hget.
  split.
  - rewrite Hget. unfold Ctx.newMap. rewrite foldl_app. simpl.
    rewrite foldl_ins_notin by done. apply lookup_insert_eq.
  - intros key'. rewrite Hget. apply bool_decide_ext.
    apply foldl_ins_is_Some.
Qed.

Lemma makeContext_closure_last_binding_witness :
  let '(c, h') :=
    Ctx.makeContext Ctx.ClosureVersion [("a", 1); ("b", 2); ("a", 3)]
      Ctx.empty in
  Ctx.get c "a" h' = Some 3.
Proof.
  pose proof (makeContext_closure_last_binding Ctx.empty
    [("a", 1); ("b", 2)] [] "a" 3) as H.
  simpl in H. apply H. apply not_elem_of_nil.
Defined.

(** X7.  A context made by the prototype version answers a key of its
    entries with the last binding, and any other key with whatever the map
    of the prototype held for it before: earlier contexts show through. *)
Theorem makeContext_proto_overlays {T} (h : Ctx.Heap T)
    (entries : list (string * T)) (key : string) :
  let '(c, h') := Ctx.makeContext Ctx.ProtoVersion entries h in
  Ctx.get c key h'
  = match Ctx.newMap entries !! key with
    | Some val => Some val
    | None => Ctx.get Ctx.OfProto key h
    end.
Proof.
  simpl. rewrite setAll_proto. unfold Ctx.get. simpl.
  apply foldl_ins_overlay.
Qed.

(** X8.  In the closure version the contexts of the heap are independent:
    making a new context, and [set] or [del] on another context, leave the
    answers of a context as they were. *)
Theorem closure_contexts_independent {T} (h : Ctx.Heap T) (l l' : nat)
    (entries : list (string * T)) (key key' : string) (val : T) :
  (l < length (Ctx.own_maps h))%nat → l' ≠ l →
  Ctx.get (Ctx.OfClosure l) key
    (Ctx.makeContext Ctx.ClosureVersion entries h).2
  = Ctx.get (Ctx.OfClosure l) key h
  ∧ (Ctx.makeContext Ctx.ClosureVersion entries h).1
    = Ctx.OfClosure (length (Ctx.own_maps h))
  ∧ Ctx.get (Ctx.OfClosure l) key (Ctx.set (Ctx.OfClosure l') key' val h).2
    = Ctx.get (Ctx.OfClosure l) key h
  ∧ Ctx.get (Ctx.OfClosure l) key (Ctx.del (Ctx.OfClosure l') key' h).2
    = Ctx.get (Ctx.OfClosure l) key h.
Proof.
  intros Hl Hne. split_and!.
  - by apply makeContext_closure_frame.
  - done.
  - by apply updMap_closure_frame.
  - by apply updMap_closure_frame.
Qed.

Lemma closure_contexts_independent_witness :
  let h := (Ctx.makeContext Ctx.ClosureVersion [("a", 1)] Ctx.empty).2 in
  Ctx.get (Ctx.OfClosure 0) "a"
    (Ctx.makeContext Ctx.ClosureVersion [("a", 2)] h).2 = Some 1.
Proof.
  pose proof (closure_contexts_independent
    (Ctx.makeContext Ctx.ClosureVersion [("a", 1)] Ctx.empty).2
    0 1 [("a", 2)] "a" "a" 5) as H.
  destruct H as (H & _); [simpl; lia | lia |].
  simpl. simpl in H. rewrite H. reflexivity.
Defined.

(** ** Closure conversion, continued *)

Lemma draws_nonneg (tree : Tree) : 0 ≤ draws tree.
Proof. induction tree; simpl; lia. Qed.

Lemma template_inj (prefix : string) (i j : Z) :
  template prefix i = template prefix j → i = j.
Proof.
  unfold template. intros Heq.
  apply (inj (String.app prefix)) in Heq. by apply (inj pretty) in Heq.
Qed.

Lemma declNames_app (xs ys : Prog) :
  declNames (xs ++ ys) = declNames xs ++ declNames ys.
Proof. apply omap_app. Qed.

(** The declarations of a conversion: one per lambda, all of them [Decl]s. *)
Lemma convert_decls version tree : ∀ state w,
  Forall (λ topl, isDecl topl = true) (convert version state tree w).1.1
  ∧ length (convert version state tree w).1.1 = countLam tree.
Proof.
  induction tree as [data|data|prop body IH|func IHf argm IHa
                    |name bind IHb body IHe]; intros state w.
  - by split.
  - by split.
  - cbn [convert]. rewrite !next_spec. cbn [states contexts].
    destruct (Ctx.makeContext _ _ _) as [sub ch3].
    match goal with
    | |- context [convert version state body ?w3] =>
        specialize (IH state w3); destruct (convert version state body w3)
          as [[xs [res state3]] w4]
    end.
    destruct (substitute sub res (contexts w4)) as [bd ch5].
    cbn [fst snd] in *. destruct IH as [Hall Hlen]. split.
    + apply Forall_app. split; [done | by repeat constructor].
    + rewrite length_app. simpl. lia.
  - cbn [convert].
    specialize (IHf state w).
    destruct (convert version state func w) as [[funProg [expr state1]] w1].
    destruct (next state1 w1) as [[k state3] w2].
    specialize (IHa state3 w2).
    destruct (convert version state3 argm w2) as [[argProg [body state4]] w3].
    cbn [fst snd] in *. destruct IHf, IHa. split.
    + by apply Forall_app.
    + rewrite length_app. simpl. lia.
  - cbn [convert].
    specialize (IHb state w).
    destruct (convert version state bind w) as [[bindProg [expr state1]] w1].
    specialize (IHe state1 w1).
    destruct (convert version state1 body w1) as [[bodyProg [code state2]] w2].
    cbn [fst snd] in *. destruct IHb, IHe. split.
    + by apply Forall_app.
    + rewrite length_app. simpl. lia.
Qed.

(** The names of the declarations of a conversion: [cls] followed by one of
    the integers drawn, no name twice. *)
Lemma convert_names version tree : ∀ state w,
  NoDup (declNames (convert version state tree w).1.1)
  ∧ ∀ name, name ∈ declNames (convert version state tree w).1.1 →
      ∃ j, name = template "cls" j
           ∧ State.curr (states w) state < j
             ≤ State.curr (states w) state + draws tree.
Proof.
  induction tree as [data|data|prop body IH|func IHf argm IHa
                    |name bind IHb body IHe]; intros state w.
  - simpl. split; [apply NoDup_nil_2 | by intros ? ?%elem_of_nil].
  - simpl. split; [apply NoDup_nil_2 | by intros ? ?%elem_of_nil].
  - cbn [convert]. rewrite !next_spec. cbn [states contexts].
    destruct (Ctx.makeContext _ _ _) as [sub ch3].
    match goal with
    | |- context [convert version state body ?w3] =>
        specialize (IH state w3); destruct (convert version state body w3)
          as [[xs [res state3]] w4]
    end.
    destruct (substitute sub res (contexts w4)) as [bd ch5].
    cbn [fst snd states] in *. rewrite !State_curr_next in IH.
    destruct IH as [Hnd Hin].
    pose proof (draws_nonneg body) as Hb.
    rewrite declNames_app, ?State_curr_next.
    change (declNames [TDecl ?a ?b ?c ?d ?e]) with [b].
    cbn [draws]. split.
    + apply list.NoDup_app. split_and!; [done | | apply NoDup_singleton].
      intros n Hn Hn'. apply list_elem_of_singleton in Hn'. subst n.
      apply Hin in Hn as (j & Hj & Hlt). apply template_inj in Hj. lia.
    + intros n [Hn|Hn]%elem_of_app.
      * apply Hin in Hn as (j & -> & Hlt). exists j. split; [done | lia].
      * apply list_elem_of_singleton in Hn. subst n.
        eexists. split; [done | lia].
  - cbn [convert].
    pose proof (convert_state version func state w) as Hsf.
    specialize (IHf state w).
    destruct (convert version state func w) as [[funProg [expr state1]] w1].
    cbn [fst snd] in Hsf. destruct Hsf as (-> & Hc1 & _).
    rewrite next_spec.
    match goal with
    | |- context [convert version state argm ?w2] =>
        specialize (IHa state w2); destruct (convert version state argm w2)
          as [[argProg [body state4]] w3]
    end.
    cbn [fst snd states] in *. rewrite State_curr_next, Hc1 in IHa.
    destruct IHf as [Hndf Hinf], IHa as [Hnda Hina].
    pose proof (draws_nonneg func). pose proof (draws_nonneg argm).
    rewrite declNames_app. cbn [draws]. split.
    + apply list.NoDup_app. split_and!; [done | | done].
      intros n Hn Hn'.
      apply Hinf in Hn as (j & Hj & Hlt).
      apply Hina in Hn' as (j' & Hj' & Hlt'). subst n.
      apply template_inj in Hj'. lia.
    + intros n [Hn|Hn]%elem_of_app.
      * apply Hinf in Hn as (j & -> & Hlt). exists j. split; [done | lia].
      * apply Hina in Hn as (j & -> & Hlt). exists j. split; [done | lia].
  - cbn [convert].
    pose proof (convert_state version bind state w) as Hsb.
    specialize (IHb state w).
    destruct (convert version state bind w) as [[bindProg [expr state1]] w1].
    cbn [fst snd] in Hsb. destruct Hsb as (-> & Hc1 & _).
    specialize (IHe state w1).
    destruct (convert version state body w1) as [[bodyProg [code state2]] w2].
    cbn [fst snd states] in *. rewrite Hc1 in IHe.
    destruct IHb as [Hndb Hinb], IHe as [Hnde Hine].
    pose proof (draws_nonneg bind). pose proof (draws_nonneg body).
    rewrite declNames_app. cbn [draws]. split.
    + apply list.NoDup_app. split_and!; [done | | done].
      intros n Hn Hn'.
      apply Hinb in Hn as (j & Hj & Hlt).
      apply Hine in Hn' as (j' & Hj' & Hlt'). subst n.
      apply template_inj in Hj'. lia.
    + intros n [Hn|Hn]%elem_of_app.
      * apply Hinb in Hn as (j & -> & Hlt). exists j. split; [done | lia].
      * apply Hine in Hn as (j & -> & Hlt). exists j. split; [done | lia].
Qed.

(** X9.  A conversion hands back the state object it was given, with its
    count advanced by two for every lambda and one for every application of
    the tree; the count of every other state is as before. *)
Theorem convert_draws_from_state (version : Ctx.Version) (tree : Tree)
    (state : State.State) (w : World) :
  (convert version state tree w).1.2.2 = state
  ∧ ∀ s', State.curr (states (convert version state tree w).2) s'
          = if decide (s' = state)
            then State.curr (states w) state + draws tree
            else State.curr (states w) s'.
Proof.
  destruct (convert_state version tree state w) as (Hs & Hc & Hne).
  split; [done |]. intros s'. case_decide; [by subst | by apply Hne].
Qed.

(** X10.  The program of [convertCls] is one [Decl] for every lambda of the
    tree, followed by one [Main], which comes last. *)
Theorem convertCls_shape (version : Ctx.Version) (tree : Tree) :
  ∃ decls expr,
    convertCls version tree = decls ++ [TMain expr]
    ∧ forallb isDecl decls = true
    ∧ length decls = countLam tree.
Proof.
  unfold convertCls. cbn [State.makeState State.empty State.allocated].
  match goal with
  | |- context [convert version ?s tree ?w] =>
      pose proof (convert_decls version tree s w) as [Hall Hlen];
      destruct (convert version s tree w) as [[decs [code state]] w']
  end.
  exists decs, code. cbn [fst snd] in *. split_and!; try done.
  apply forallb_forall. intros x Hx.
  rewrite List.Forall_forall in Hall. by apply Hall.
Qed.

(** X11.  The functions hoisted by [convertCls] have pairwise different
    names. *)
Theorem convertCls_names_distinct (version : Ctx.Version) (tree : Tree) :
  NoDup (declNames (convertCls version tree)).
Proof.
  unfold convertCls. cbn [State.makeState State.empty State.allocated].
  match goal with
  | |- context [convert version ?s tree ?w] =>
      pose proof (convert_names version tree s w) as [Hnd _];
      destruct (convert version s tree w) as [[decs [code state]] w']
  end.
  cbn [fst snd] in *. rewrite declNames_app. simpl. by rewrite app_nil_r.
Qed.

(** ** Substitution, continued *)

Lemma mapOf_del_missing (c : Ctx.Context) (h : CtxHeap) (key : string) :
  Ctx.get c key h = None → Ctx.mapOf (Ctx.del c key h).2 c = Ctx.mapOf h c.
Proof.
  intros Hk. apply map_eq. intros key'.
  pose proof (get_del h c key key') as Hd. unfold Ctx.get in Hd, Hk.
  rewrite Hd. case_decide; [by subst |]. done.
Qed.

(** When no [Let] of the expression binds a key of the map, the
    substitution of the code is the specified one and leaves the map as it
    found it. *)
Lemma substitute_unshadowed (c : Ctx.Context) (expr : Expr) : ∀ h,
  (∀ name, name ∈ letNames expr → Ctx.get c name h = None) →
  (substitute c expr h).1 = substitute_spec (Ctx.mapOf h c) expr
  ∧ Ctx.mapOf (substitute c expr h).2 c = Ctx.mapOf h c.
Proof.
  induction expr as [data|data|data idx|func argm IH|prop body IH
                    |name bind body IHbind IHbody] using Expr_nested_ind;
    intros h Hno; try done.
  - cbn [substitute substitute_spec letNames] in *.
    specialize (IH h Hno). destruct (substitute c argm h) as [a' h'].
    cbn [fst snd] in *. destruct IH as [-> ->]. done.
  - rewrite substitute_Cls. cbn [fst snd substitute_spec].
    assert (Hall : (substituteAll c body h).1
                   = List.map (substitute_spec (Ctx.mapOf h c)) body
                   ∧ Ctx.mapOf (substituteAll c body h).2 c = Ctx.mapOf h c).
    { cbn [letNames] in Hno. revert h Hno.
      induction IH as [|e body He _ IHl]; intros h Hno; [done |].
      cbn [substituteAll List.map].
      assert (He' := He h). destruct (substitute c e h) as [e' h1].
      cbn [fst snd] in He'. destruct He' as [-> Hm1].
      { intros n Hn. apply Hno. simpl. apply elem_of_app. by left. }
      assert (Hl' := IHl h1). destruct (substituteAll c body h1) as [r' h2].
      cbn [fst snd] in *. destruct Hl' as [-> Hm2].
      { intros n Hn. unfold Ctx.get. rewrite Hm1. apply Hno.
        simpl. apply elem_of_app. by right. }
      rewrite Hm1 in *. done. }
    destruct Hall as [-> ->]. done.
  - cbn [substitute substitute_spec]. cbn [letNames] in Hno.
    unfold Name in *.
    assert (Hb := IHbind h). destruct (substitute c bind h) as [b' h1].
    cbn [fst snd] in Hb. destruct Hb as [-> Hm1].
    { intros n Hn. apply Hno. apply elem_of_cons. right.
      apply elem_of_app. by left. }
    assert (Hname : Ctx.get c name h1 = None).
    { unfold Ctx.get. rewrite Hm1. apply Hno. apply elem_of_cons. by left. }
    pose proof (mapOf_del_missing c h1 name Hname) as Hd.
    unfold Ctx.del in *. cbn [fst snd] in *.
    assert (He := IHbody (Ctx.updMap (delete name) c h1)).
    destruct (substitute c body _) as [e' h3].
    cbn [fst snd] in He. destruct He as [-> Hm3].
    { intros n Hn. unfold Ctx.get. rewrite Hd, Hm1. apply Hno.
      apply elem_of_cons. right. apply elem_of_app. by right. }
    cbn [fst snd]. split; [| by rewrite Hm3, Hd, Hm1].
    rewrite Hd, Hm1. rewrite delete_id; [done |].
    unfold Ctx.get in Hname. by rewrite <- Hm1.
Qed.

(** X12.  If no [Let] of an expression binds a name that the map holds, then
    [substitute] gives the specified copy, every [Ref] to a key replaced and
    nothing else changed, and the map holds afterwards what it held
    before. *)
Theorem substitute_agrees_without_shadowing (c : Ctx.Context) (expr : Expr)
    (h : CtxHeap) :
  (∀ name, name ∈ letNames expr → Ctx.get c name h = None) →
  (substitute c expr h).1 = substitute_spec (Ctx.mapOf h c) expr
  ∧ ∀ key, Ctx.get c key (substitute c expr h).2 = Ctx.get c key h.
Proof.
  intros Hno. destruct (substitute_unshadowed c expr h Hno) as [Hs Hm].
  split; [done |]. intros key. unfold Ctx.get. by rewrite Hm.
Qed.

Lemma substitute_agrees_without_shadowing_witness :
  let '(c, h) :=
    Ctx.makeContext Ctx.ClosureVersion [("x", EIdx "env1" 0)] Ctx.empty in
  (substitute c (ELet "y" (ERef "x") (ECls "f" [ERef "x"; ERef "y"])) h).1
  = ELet "y" (EIdx "env1" 0) (ECls "f" [EIdx "env1" 0; ERef "y"]).
Proof.
  pose proof (substitute_agrees_without_shadowing
    (Ctx.makeContext Ctx.ClosureVersion [("x", EIdx "env1" 0)] Ctx.empty).1
    (ELet "y" (ERef "x") (ECls "f" [ERef "x"; ERef "y"]))
    (Ctx.makeContext Ctx.ClosureVersion [("x", EIdx "env1" 0)] Ctx.empty).2)
    as H.
  destruct H as [H _].
  - intros name Hin. vm_compute in Hin.
    apply list_elem_of_singleton in Hin. subst name. reflexivity.
  - simpl. simpl in H. rewrite H. reflexivity.
Defined.

(** ** Substitution and conversion as pure functions *)

Section UpdMap.
Context {T : Type}.
Implicit Types (h : Ctx.Heap T) (c : Ctx.Context) (m : gmap string T).

Lemma updMap_const_id c h :
  validCtx h c → Ctx.updMap (λ _, Ctx.mapOf h c) c h = h.
Proof.
  destruct h as [pm om], c as [|l]; simpl; [done |]. intros Hl.
  f_equal. apply lookup_lt_is_Some in Hl as [x Hx]. rewrite Hx. simpl.
  apply list_eq. intros i. rewrite list_lookup_alter.
  case_decide; [subst; by rewrite Hx | done].
Qed.

Lemma updMap_const_const c h m1 m2 :
  Ctx.updMap (λ _, m2) c (Ctx.updMap (λ _, m1) c h) = Ctx.updMap (λ _, m2) c h.
Proof.
  destruct c as [|l]; simpl; [done |]. f_equal.
  apply list_eq. intros i. destruct (decide (l = i)) as [->|Hne].
  - rewrite !list_lookup_alter_eq. by destruct (Ctx.own_maps h !! i).
  - by rewrite !list_lookup_alter_ne.
Qed.

Lemma updMap_after_const f c h m1 :
  Ctx.updMap f c (Ctx.updMap (λ _, m1) c h) = Ctx.updMap (λ _, f m1) c h.
Proof.
  destruct c as [|l]; simpl; [done |]. f_equal.
  apply list_eq. intros i. destruct (decide (l = i)) as [->|Hne].
  - rewrite !list_lookup_alter_eq. by destruct (Ctx.own_maps h !! i).
  - by rewrite !list_lookup_alter_ne.
Qed.

Lemma validCtx_updMap f c c' h : validCtx h c → validCtx (Ctx.updMap f c' h) c.
Proof.
  destruct c as [|l], c' as [|l']; simpl; try done.
  by rewrite length_alter.
Qed.

End UpdMap.

(** [substitute] reads and writes the heap only through the map of its
    context, which it uses as the pure substitution uses its map. *)
Lemma substitute_refines (c : Ctx.Context) (expr : Expr) : ∀ h,
  validCtx h c →
  substitute c expr h
  = ((substitute_pure (Ctx.mapOf h c) expr).1,
     Ctx.updMap (λ _, (substitute_pure (Ctx.mapOf h c) expr).2) c h).
Proof.
  induction expr as [data|data|data idx|func argm IH|prop body IH
                    |name bind body IHbind IHbody] using Expr_nested_ind;
    intros h Hc.
  - cbn [substitute substitute_pure fst snd]. by rewrite updMap_const_id.
  - cbn [substitute substitute_pure fst snd]. rewrite updMap_const_id by done.
    unfold substituteRef, Ctx.get. by destruct (Ctx.mapOf h c !! data).
  - cbn [substitute substitute_pure fst snd]. by rewrite updMap_const_id.
  - cbn [substitute substitute_pure]. rewrite (IH h Hc).
    by destruct (substitute_pure (Ctx.mapOf h c) argm).
  - rewrite substitute_Cls.
    assert (Hall : ∀ h, validCtx h c →
              substituteAll c body h
              = ((substituteAll_pure (Ctx.mapOf h c) body).1,
                 Ctx.updMap
                   (λ _, (substituteAll_pure (Ctx.mapOf h c) body).2) c h)).
    { clear h Hc. induction IH as [|e body He _ IHl]; intros h Hc.
      - cbn [substituteAll substituteAll_pure fst snd].
        by rewrite updMap_const_id.
      - cbn [substituteAll substituteAll_pure]. rewrite (He h Hc).
        destruct (substitute_pure (Ctx.mapOf h c) e) as [e' m1].
        cbn [fst snd].
        rewrite IHl by (apply validCtx_updMap; exact Hc).
        rewrite (mapOf_updMap (λ _, m1) c h Hc).
        destruct (substituteAll_pure m1 body) as [r' m2]. cbn [fst snd].
        by rewrite updMap_const_const. }
    rewrite (Hall h Hc). cbn [fst snd substitute_pure].
    set (go := fix all (l : list Expr) (m : gmap string Expr) {struct l} :=
           match l with
           | [] => ([], m)
           | e :: rest =>
               let '(e', m1) := substitute_pure m e in
               let '(rest', m2) := all rest m1 in (e' :: rest', m2)
           end).
    assert (Hgo : ∀ l m, go l m = substituteAll_pure m l).
    { induction l as [|e l IHl]; intros m; [done |].
      simpl. destruct (substitute_pure m e) as [e' m1]. by rewrite IHl. }
    rewrite Hgo. by destruct (substituteAll_pure (Ctx.mapOf h c) body).
  - cbn [substitute substitute_pure]. rewrite (IHbind h Hc).
    destruct (substitute_pure (Ctx.mapOf h c) bind) as [b' m1].
    unfold Ctx.del. cbn [fst snd]. rewrite updMap_after_const.
    rewrite IHbody by (apply validCtx_updMap; exact Hc).
    rewrite (mapOf_updMap (λ _, delete name m1) c h Hc).
    destruct (substitute_pure (delete name m1) body) as [e' m2].
    cbn [fst snd]. by rewrite updMap_const_const.
Qed.

(** With a map per context, a conversion keeps the maps that were in the
    heap before it and computes what the pure conversion computes. *)
Lemma convert_closure_refines (tree : Tree) : ∀ state w,
  (convert Ctx.ClosureVersion state tree w).1
  = ((convert_pure (State.curr (states w) state) tree).1,
     ((convert_pure (State.curr (states w) state) tree).2, state))
  ∧ (length (Ctx.own_maps (contexts w))
     ≤ length (Ctx.own_maps
                 (contexts (convert Ctx.ClosureVersion state tree w).2)))%nat
  ∧ ∀ l, (l < length (Ctx.own_maps (contexts w)))%nat →
      Ctx.own_maps (contexts (convert Ctx.ClosureVersion state tree w).2) !! l
      = Ctx.own_maps (contexts w) !! l.
Proof.
  induction tree as [data|data|prop body IH|func IHf argm IHa
                    |name bind IHb body IHe]; intros state w.
  - simpl. split_and!; [done | lia | done].
  - simpl. split_and!; [done | lia | done].
  - cbn [convert convert_pure]. rewrite !next_spec.
    cbn [states contexts Ctx.makeContext].
    set (entries := imap _ (free (Lam prop body))).
    match goal with
    | |- context [convert Ctx.ClosureVersion state body ?w3] =>
        specialize (IH state w3); cbn [states contexts] in IH;
        destruct (convert Ctx.ClosureVersion state body w3)
          as [[xs [res state3]] w4]
    end.
    rewrite !State_curr_next in IH. cbn [fst snd] in IH.
    destruct IH as (Hr & Hlen & Hold). cbn [Ctx.own_maps] in Hlen, Hold.
    rewrite length_app in Hlen, Hold. simpl in Hlen, Hold.
    injection Hr as -> -> ->.
    assert (Hsub : Ctx.own_maps (contexts w4)
                   !! length (Ctx.own_maps (contexts w))
                   = Some (Ctx.newMap entries)).
    { rewrite Hold by lia. by apply list_lookup_middle. }
    rewrite substitute_refines by (simpl; lia).
    cbn [fst snd contexts Ctx.mapOf]. rewrite Hsub. cbn [default]. unfold id.
    rewrite ?State_curr_next.
    replace (State.curr (states w) state + 1 + 1)
      with (State.curr (states w) state + 2) by lia.
    destruct (convert_pure (State.curr (states w) state + 2) body)
      as [xs res]. cbn [fst snd].
    split_and!.
    + done.
    + simpl. rewrite length_alter. lia.
    + intros l Hl. simpl. rewrite list_lookup_alter_ne by lia.
      rewrite Hold by lia. by rewrite lookup_app_l.
  - cbn [convert convert_pure].
    pose proof (convert_state Ctx.ClosureVersion func state w) as Hsf.
    specialize (IHf state w).
    destruct (convert Ctx.ClosureVersion state func w)
      as [[funProg [expr state1]] w1].
    cbn [fst snd] in Hsf, IHf. destruct Hsf as (-> & Hc1 & _).
    destruct IHf as (Hr & Hlen & Hold). injection Hr as -> ->.
    rewrite next_spec.
    match goal with
    | |- context [convert Ctx.ClosureVersion state argm ?w2] =>
        specialize (IHa state w2); cbn [states contexts] in IHa;
        destruct (convert Ctx.ClosureVersion state argm w2)
          as [[argProg [body state4]] w3]
    end.
    rewrite State_curr_next, Hc1 in IHa. cbn [fst snd] in IHa.
    destruct IHa as (Hr & Hlen' & Hold'). injection Hr as -> -> ->.
    rewrite Hc1.
    destruct (convert_pure (State.curr (states w) state) func) as [fp fe].
    destruct (convert_pure (State.curr (states w) state + draws func + 1) argm)
      as [ap ae].
    cbn [fst snd]. split_and!; [done | lia |].
    intros l Hl. rewrite Hold' by lia. by apply Hold.
  - cbn [convert convert_pure].
    pose proof (convert_state Ctx.ClosureVersion bind state w) as Hsb.
    specialize (IHb state w).
    destruct (convert Ctx.ClosureVersion state bind w)
      as [[bindProg [expr state1]] w1].
    cbn [fst snd] in Hsb, IHb. destruct Hsb as (-> & Hc1 & _).
    destruct IHb as (Hr & Hlen & Hold). injection Hr as -> ->.
    specialize (IHe state w1).
    destruct (convert Ctx.ClosureVersion state body w1)
      as [[bodyProg [code state2]] w2].
    rewrite Hc1 in IHe. cbn [fst snd] in IHe.
    destruct IHe as (Hr & Hlen' & Hold'). injection Hr as -> -> ->.
    destruct (convert_pure (State.curr (states w) state) bind) as [bp be].
    destruct (convert_pure (State.curr (states w) state + draws bind) body)
      as [ep ee].
    cbn [fst snd]. split_and!; [done | lia |].
    intros l Hl. rewrite Hold' by lia. by apply Hold.
Qed.

(** X13.  [substitute] works on the heap through the map of its context
    alone: the expression it answers and the map it leaves are those of the
    substitution that passes the map along as a value (so a name deleted for
    one [Let] stays deleted for what comes after), and the heap is changed
    nowhere else. *)
Theorem substitute_threads_one_map (c : Ctx.Context) (expr : Expr)
    (h : CtxHeap) :
  validCtx h c →
  (substitute c expr h).1 = (substitute_pure (Ctx.mapOf h c) expr).1
  ∧ Ctx.mapOf (substitute c expr h).2 c
    = (substitute_pure (Ctx.mapOf h c) expr).2
  ∧ (substitute c expr h).2
    = Ctx.updMap (λ _, (substitute_pure (Ctx.mapOf h c) expr).2) c h.
Proof.
  intros Hc. rewrite substitute_refines by done. cbn [fst snd].
  split_and!; try done. by rewrite mapOf_updMap.
Qed.

Lemma substitute_threads_one_map_witness :
  let '(c, h) :=
    Ctx.makeContext Ctx.ProtoVersion
      [("x", EIdx "env1" 0); ("y", EIdx "env1" 1)] Ctx.empty in
  (substitute c
     (ECls "f" [ELet "x" (ERef "y") (ERef "x"); ERef "x"; ERef "y"]) h).1
  = ECls "f" [ELet "x" (EIdx "env1" 1) (ERef "x"); ERef "x"; EIdx "env1" 1].
Proof.
  pose proof (substitute_threads_one_map
    (Ctx.makeContext Ctx.ProtoVersion
       [("x", EIdx "env1" 0); ("y", EIdx "env1" 1)] Ctx.empty).1
    (ECls "f" [ELet "x" (ERef "y") (ERef "x"); ERef "x"; ERef "y"])
    (Ctx.makeContext Ctx.ProtoVersion
       [("x", EIdx "env1" 0); ("y", EIdx "env1" 1)] Ctx.empty).2) as H.
  destruct H as (H & _ & _); [exact I |].
  simpl. simpl in H. rewrite H. vm_compute. reflexivity.
Defined.

(** X14.  With a map per context the conversion does not depend on the
    contexts made before it: its declarations and its expression are those
    of the pure conversion from the count of the state, and the maps that
    were in the heap are still there, unchanged.  So [convertCls] is the
    pure conversion from count 0. *)
Theorem convert_closure_is_pure (tree : Tree) (state : State.State)
    (w : World) :
  (convert Ctx.ClosureVersion state tree w).1
  = ((convert_pure (State.curr (states w) state) tree).1,
     ((convert_pure (State.curr (states w) state) tree).2, state))
  ∧ (∀ l, (if decide (l < length (Ctx.own_maps (contexts w)))%nat
           then Ctx.own_maps
                  (contexts (convert Ctx.ClosureVersion state tree w).2) !! l
           else None)
          = Ctx.own_maps (contexts w) !! l)
  ∧ convertCls Ctx.ClosureVersion tree
    = (convert_pure 0 tree).1 ++ [TMain (convert_pure 0 tree).2].
Proof.
  destruct (convert_closure_refines tree state w) as (Hr & _ & Hold).
  split_and!; [done | |].
  - intros l. case_decide as Hl; [by apply Hold |].
    symmetry. apply lookup_ge_None_2. lia.
  - unfold convertCls. cbn [State.makeState State.empty State.allocated].
    match goal with
    | |- context [convert Ctx.ClosureVersion ?s tree ?w0] =>
        destruct (convert_closure_refines tree s w0) as (Hr0 & _ & _);
        destruct (convert Ctx.ClosureVersion s tree w0)
          as [[decs [code st]] w']
    end.
    cbn [fst snd] in Hr0. by injection Hr0 as -> -> _.
Qed.

(** ** The scanner, continued *)

Section ScannerInvariants.
Import Scanner.
Variable source : list ascii.

Lemma parseDigits_nonneg (s : list ascii) (acc : Z) :
  0 ≤ acc → 0 ≤ parseDigits acc s.
Proof.
  revert acc. induction s as [|ch s IH]; intros acc Hacc; simpl; [done |].
  destruct (isDigit ch); [| done]. apply IH. lia.
Qed.

Lemma toDouble_nonneg (z : Z) :
  0 ≤ z → match toDouble z with Finite v => 0 ≤ v | Infinity => True end.
Proof.
  intros Hz. unfold toDouble.
  destruct (z <? 2 ^ 53); [done |].
  set (e := Z.log2 z - 52). set (q := Z.shiftr z e).
  assert (0 ≤ q) by (by apply Z.shiftr_nonneg).
  match goal with |- context [Z.shiftl ?x e] => set (q' := x) end.
  assert (0 ≤ q') by (unfold q'; destruct (_ || _); lia).
  destruct (_ <=? _); [done |]. by apply Z.shiftl_nonneg.
Qed.

Lemma number_tokenOk start_pos pos :
  tokenOk (number source start_pos pos).2 = true.
Proof.
  unfold number, parseInt. cbn [snd tokenOk].
  match goal with
  | |- context [toDouble ?z] =>
      pose proof (toDouble_nonneg z (parseDigits_nonneg _ 0 (Z.le_refl 0))) as H;
      destruct (toDouble z)
  end; [by apply Z.leb_le | done].
Qed.

Lemma string_of_list_ascii_empty (l : list ascii) :
  string_of_list_ascii l = "" → l = [].
Proof. by destruct l. Qed.

Lemma identifier_tokenOk pos :
  (pos < length source)%nat →
  tokenOk (identifier source pos (S pos)).2 = true.
Proof.
  intros Hpos. unfold identifier.
  pose proof (advanceWhile_ge source isAlphaNumeric (left source (S pos))
                (S pos)) as Hge.
  set (pos1 := advanceWhile source isAlphaNumeric _ _) in *.
  set (value := string_of_list_ascii (substring source pos pos1)).
  assert (Hne : value ≠ "").
  { unfold value, substring. intros Hv.
    apply string_of_list_ascii_empty in Hv.
    apply (f_equal length) in Hv. rewrite length_take, length_drop in Hv.
    simpl in Hv. lia. }
  unfold keywords.
  case_bool_decide as Hfun; [done |].
  case_bool_decide as Hlet; [done |].
  cbn [snd tokenOk].
  by rewrite !bool_decide_eq_false_2 by done.
Qed.

(** A scan that starts from good tokens ends in an error or in good tokens
    followed by [EOF]. *)
Lemma scanLoop_tokens fuel pos tokens :
  (left source pos ≤ fuel)%nat →
  Forall (λ t, tokenOk t = true) tokens →
  match scanLoop source fuel pos tokens with
  | Ok ts => ∃ ts', ts = ts' ++ [EOF] ∧ Forall (λ t, tokenOk t = true) ts'
  | Err _ => True
  | OutOfFuel => False
  end.
Proof.
  unfold left. revert pos tokens.
  induction fuel as [|fuel IH]; intros pos tokens Hf Hok; cbn [scanLoop];
    case_decide as Hpos; try lia; try (by eexists).
  pose proof (number_ge source pos (S pos)).
  pose proof (identifier_ge source pos (S pos)).
  pose proof (matchToken_ge source ">" (S pos)).
  pose proof (number_tokenOk pos (S pos)).
  pose proof (identifier_tokenOk pos Hpos).
  destruct (number source pos (S pos)) as [pn tn].
  destruct (identifier source pos (S pos)) as [pi ti].
  destruct (matchToken source ">" (S pos)) as [m pm].
  cbn [fst snd] in *.
  repeat (match goal with
          | |- context [if ?b then _ else _] => destruct b
          end;
          try (apply IH; [lia | apply Forall_app; split; [done |];
                                by repeat constructor]);
          try (apply IH; [lia | done]); try done).
Qed.

End ScannerInvariants.

(** X15.  The scanner always comes to an end, with an error or with a list
    of tokens; the list ends in [EOF] and holds no other [EOF]. *)
Theorem scanner_ends_in_one_EOF (source : string) :
  match Scanner.scanner source with
  | Ok tokens =>
      ∃ tokens', tokens = tokens' ++ [EOF]
                 ∧ forallb (λ t, negb (bool_decide (tagOf t = tEOF))) tokens'
                   = true
  | Err _ => True
  | OutOfFuel => False
  end.
Proof.
  unfold Scanner.scanner, Scanner.scanFrom.
  pose proof (scanLoop_tokens (list_ascii_of_string source)
    (Scanner.left (list_ascii_of_string source) 0) 0 []
    (le_n _) (Forall_nil _)) as H.
  destruct (Scanner.scanLoop _ _ _ _) as [ts|msg|]; [| done | done].
  destruct H as (ts' & -> & Hok). exists ts'. split; [done |].
  apply forallb_forall. intros t Ht. rewrite List.Forall_forall in Hok.
  specialize (Hok t Ht). by destruct t.
Qed.

(** X16.  In the tokens of a successful scan no [NUMBER] is negative and no
    [SYMBOL] is empty or spells a keyword. *)
Theorem scanner_tokens_wellformed (source : string) :
  match Scanner.scanner source with
  | Ok tokens =>
      forallb (λ t, match t with
                    | NUMBER (Finite value) => 0 <=? value
                    | NUMBER Infinity => true
                    | SYMBOL value =>
                        negb (bool_decide (value = ""))
                        && negb (bool_decide (value = "fun"))
                        && negb (bool_decide (value = "let"))
                    | _ => true
                    end) tokens = true
  | _ => True
  end.
Proof.
  unfold Scanner.scanner, Scanner.scanFrom.
  pose proof (scanLoop_tokens (list_ascii_of_string source)
    (Scanner.left (list_ascii_of_string source) 0) 0 []
    (le_n _) (Forall_nil _)) as H.
  destruct (Scanner.scanLoop _ _ _ _) as [ts|msg|]; [| done | done].
  destruct H as (ts' & -> & Hok).
  apply forallb_forall. intros t Ht. rewrite List.Forall_forall in Hok.
  apply in_app_or in Ht as [Ht|[<-|[]]]; [| done].
  specialize (Hok t Ht). by destruct t.
Qed.

Section ScannerShift.
Import Scanner.
Variables pre rest : list ascii.

Lemma lookup_shift k : (pre ++ rest) !! (length pre + k)%nat = rest !! k.
Proof.
  rewrite lookup_app_r by lia. f_equal. lia.
Qed.

Lemma peek_shift k : peek (pre ++ rest) (length pre + k) = peek rest k.
Proof.
  unfold peek. rewrite length_app, lookup_shift.
  repeat case_decide; try lia; done.
Qed.

Lemma peekNext_shift k :
  peekNext (pre ++ rest) (length pre + k) = peekNext rest k.
Proof.
  unfold peekNext. rewrite length_app.
  replace (length pre + k + 1)%nat with (length pre + (k + 1))%nat by lia.
  rewrite lookup_shift. repeat case_decide; try lia; done.
Qed.

Lemma left_shift k : left (pre ++ rest) (length pre + k) = left rest k.
Proof. unfold left. rewrite length_app. lia. Qed.

Lemma advanceWhile_shift p fuel k :
  advanceWhile (pre ++ rest) p fuel (length pre + k)
  = (length pre + advanceWhile rest p fuel k)%nat.
Proof.
  revert k. induction fuel as [|fuel IH]; intros k; [done |].
  cbn [advanceWhile]. rewrite peek_shift.
  destruct (p (peek rest k)); [| done].
  rewrite <- IH. f_equal. lia.
Qed.

Lemma substring_shift a b :
  substring (pre ++ rest) (length pre + a) (length pre + b)
  = substring rest a b.
Proof.
  unfold substring. rewrite drop_app_ge by lia. f_equal; [lia |].
  f_equal. lia.
Qed.

Lemma number_shift s k :
  number (pre ++ rest) (length pre + s) (length pre + k)
  = ((length pre + (number rest s k).1)%nat, (number rest s k).2).
Proof.
  unfold number. cbn [fst snd].
  rewrite left_shift, advanceWhile_shift, peek_shift, peekNext_shift.
  set (pos1 := advanceWhile rest isDigit (left rest k) k).
  replace (S (length pre + pos1)) with (length pre + S pos1)%nat by lia.
  rewrite left_shift, advanceWhile_shift.
  destruct (_ && _); by rewrite substring_shift.
Qed.

Lemma identifier_shift s k :
  identifier (pre ++ rest) (length pre + s) (length pre + k)
  = ((length pre + (identifier rest s k).1)%nat, (identifier rest s k).2).
Proof.
  unfold identifier.
  rewrite left_shift, advanceWhile_shift, substring_shift.
  by destruct (keywords _).
Qed.

Lemma matchToken_shift expected k :
  matchToken (pre ++ rest) expected (length pre + k)
  = ((matchToken rest expected k).1,
     (length pre + (matchToken rest expected k).2)%nat).
Proof.
  unfold matchToken. rewrite length_app, lookup_shift.
  repeat case_decide; try lia; try done.
  case_bool_decide; cbn [fst snd]; f_equal; lia.
Qed.

Lemma scanLoop_shift fuel k before tokens :
  scanLoop (pre ++ rest) fuel (length pre + k) (before ++ tokens)
  = prepend before (scanLoop rest fuel k tokens).
Proof.
  revert k tokens. induction fuel as [|fuel IH]; intros k tokens;
    cbn [scanLoop]; rewrite length_app;
    destruct (decide (k < length rest)%nat) as [Hk|Hk].
  - by rewrite decide_True by lia.
  - rewrite decide_False by lia. cbn [prepend]. by rewrite app_assoc.
  - rewrite decide_True by lia.
    rewrite lookup_shift.
    replace (S (length pre + k)) with (length pre + S k)%nat by lia.
    rewrite (number_shift k (S k)), (identifier_shift k (S k)),
      matchToken_shift.
    destruct (number rest k (S k)) as [pn tn].
    destruct (identifier rest k (S k)) as [pi ti].
    destruct (matchToken rest ">" (S k)) as [m pm].
    cbn [fst snd].
    repeat match goal with
           | |- context [if ?b then _ else _] => destruct b
           end;
      rewrite <- ?app_assoc; first [apply IH | reflexivity].
  - rewrite decide_False by lia. cbn [prepend]. by rewrite app_assoc.
Qed.

End ScannerShift.

(** X17.  The scanner does not look back: the scan from a position on is the
    scan of the text from that position on, its tokens put after the tokens
    found before.  In particular a text scans the same at the start of a
    source and in the middle of one. *)
Theorem scanner_no_lookback (pre rest : list ascii) (tokens : list Token) :
  Scanner.scanFrom (pre ++ rest) (length pre) tokens
  = prepend tokens (Scanner.scanFrom rest 0 []).
Proof.
  unfold Scanner.scanFrom.
  pose proof (scanLoop_shift pre rest (Scanner.left rest 0) 0 tokens [])
    as H.
  rewrite app_nil_r, Nat.add_0_r in H. rewrite <- H. f_equal.
  unfold Scanner.left. rewrite length_app. lia.
Qed.

Section ScannerWords.
Import Scanner.

Lemma isAlpha_not_digit (ch : ascii) : isAlpha ch = true → isDigit ch = false.
Proof.
  unfold isAlpha, isDigit. intros Ha.
  apply orb_true_iff in Ha as [Ha|Ha].
  - apply andb_false_iff.
    apply orb_true_iff in Ha as [Ha|Ha];
      apply andb_true_iff in Ha as [H1 H2];
      apply N.leb_le in H1, H2; vm_compute code at 1 in H1;
      vm_compute code at 2 in H2; vm_compute (code "9"); vm_compute (code "0");
      rewrite !N.leb_gt; lia.
  - apply bool_decide_eq_true in Ha. by subst.
Qed.

Lemma advanceWhile_through (p : ascii → bool) (run pre tail : list ascii)
    (fuel : nat) :
  Forall (λ ch, p ch = true) run →
  p (hd zero tail) = false →
  (length run ≤ fuel)%nat →
  advanceWhile (pre ++ run ++ tail) p fuel (length pre)
  = (length pre + length run)%nat.
Proof.
  revert pre fuel. induction run as [|d run IH]; intros pre fuel Hr Ht Hf.
  - simpl. destruct fuel; simpl; [lia |].
    rewrite peek_app, Ht. lia.
  - apply Forall_cons_1 in Hr as [Hd Hr].
    destruct fuel as [|fuel]; simpl in Hf; [lia |].
    cbn [advanceWhile]. rewrite peek_app. simpl hd. rewrite Hd.
    replace (pre ++ (d :: run) ++ tail) with ((pre ++ [d]) ++ run ++ tail)
      by (by rewrite <- app_assoc).
    replace (S (length pre)) with (length (pre ++ [d]))
      by (rewrite length_app; simpl; lia).
    rewrite IH by (done || lia).
    rewrite length_app. simpl. lia.
Qed.

(** A round of the loop that starts on a letter calls [identifier]. *)
Lemma scanLoop_alpha (source : list ascii) (fuel pos : nat)
    (tokens : list Token) (ch : ascii) :
  source !! pos = Some ch → isAlpha ch = true →
  scanLoop source (S fuel) pos tokens
  = scanLoop source fuel (identifier source pos (S pos)).1
      (tokens ++ [(identifier source pos (S pos)).2]).
Proof.
  intros Hch Ha. cbn [scanLoop].
  apply lookup_lt_Some in Hch as Hlt.
  case_decide; [| lia].
  rewrite Hch. simpl default.
  rewrite !bool_decide_eq_false_2 by (intros ->; done).
  simpl orb. cbv iota. rewrite (isAlpha_not_digit ch Ha), Ha.
  by destruct (identifier source pos (S pos)).
Qed.

(** A round of the loop that starts on white space pushes nothing. *)
Lemma scanLoop_white (source : list ascii) (fuel pos : nat)
    (tokens : list Token) (ch : ascii) :
  source !! pos = Some ch → isWhite ch = true →
  scanLoop source (S fuel) pos tokens = scanLoop source fuel (S pos) tokens.
Proof.
  intros Hch Hw. cbn [scanLoop].
  apply lookup_lt_Some in Hch as Hlt.
  case_decide; [| lia].
  rewrite Hch. simpl default. unfold isWhite in Hw. by rewrite Hw.
Qed.

End ScannerWords.

(** X18.  Let the source hold, from the position where a token starts, a
    letter or underscore followed by letters, digits and underscores, and
    let the character after them be none of these.  Then the scan consumes
    exactly this word and pushes exactly one token for it: [FUN] or [LET]
    when the word is that keyword, otherwise [SYMBOL] of the whole word (so
    a word that only starts with a keyword is a symbol). *)
Theorem word_scans_to_one_token (pre : list ascii) (first : ascii)
    (others rest : list ascii) (tokens : list Token) :
  Scanner.isAlpha first = true →
  Forall (λ ch, Scanner.isAlphaNumeric ch = true) others →
  Scanner.isAlphaNumeric (hd Scanner.zero rest) = false →
  Scanner.scanFrom (pre ++ (first :: others) ++ rest) (length pre) tokens
  = Scanner.scanFrom (pre ++ (first :: others) ++ rest)
      (length pre + length (first :: others))
      (tokens ++ [wordToken (first :: others)]).
Proof.
  intros Ha Hothers Hrest.
  set (source := pre ++ (first :: others) ++ rest).
  assert (Hch : source !! length pre = Some first).
  { unfold source. simpl. by apply list_lookup_middle. }
  unfold Scanner.scanFrom.
  assert (Hleft : Scanner.left source (length pre)
                  = S (Scanner.left source (S (length pre)))).
  { apply lookup_lt_Some in Hch. unfold Scanner.left. lia. }
  rewrite Hleft, (scanLoop_alpha source _ _ _ first Hch Ha).
  assert (Hid : Scanner.identifier source (length pre) (S (length pre))
                = ((length pre + length (first :: others))%nat,
                   wordToken (first :: others))).
  { unfold Scanner.identifier.
    assert (Hpos : Scanner.advanceWhile source Scanner.isAlphaNumeric
                     (Scanner.left source (S (length pre))) (S (length pre))
                   = (length pre + length (first :: others))%nat).
    { unfold source.
      replace (pre ++ (first :: others) ++ rest)
        with ((pre ++ [first]) ++ others ++ rest)
        by (by rewrite <- app_assoc).
      replace (S (length pre)) with (length (pre ++ [first]))
        by (rewrite length_app; simpl; lia).
      rewrite advanceWhile_through; [| done | done |].
      - rewrite length_app. simpl. lia.
      - unfold Scanner.left. rewrite !length_app. lia. }
    rewrite Hpos. unfold source. rewrite substring_app.
    unfold wordToken, Scanner.keywords. by repeat case_bool_decide. }
  rewrite Hid. cbn [fst snd].
  apply scanLoop_fuel; unfold Scanner.left; [| lia].
  simpl. lia.
Qed.

Lemma word_scans_to_one_token_witness :
  Scanner.scanFrom (list_ascii_of_string "fun letx=>") 4 [FUN]
  = Scanner.scanFrom (list_ascii_of_string "fun letx=>") 8 [FUN; SYMBOL "letx"].
Proof.
  apply (word_scans_to_one_token (list_ascii_of_string "fun ") "l"%char
           (list_ascii_of_string "etx") (list_ascii_of_string "=>") [FUN]).
  - reflexivity.
  - repeat constructor.
  - reflexivity.
Defined.

Lemma scanFrom_white (pre white rest : list ascii) (tokens : list Token) :
  Forall (λ ch, isWhite ch = true) white →
  Scanner.scanFrom (pre ++ white ++ rest) (length pre) tokens
  = Scanner.scanFrom (pre ++ white ++ rest) (length pre + length white) tokens.
Proof.
  revert pre. induction white as [|ch white IH]; intros pre Hw.
  - simpl. by rewrite Nat.add_0_r.
  - apply Forall_cons_1 in Hw as [Hch Hw].
    set (source := pre ++ (ch :: white) ++ rest).
    assert (Hlook : source !! length pre = Some ch).
    { unfold source. simpl. by apply list_lookup_middle. }
    assert (Hleft : Scanner.left source (length pre)
                    = S (Scanner.left source (S (length pre)))).
    { apply lookup_lt_Some in Hlook. unfold Scanner.left. lia. }
    assert (Hsrc : source = (pre ++ [ch]) ++ white ++ rest).
    { unfold source. by rewrite <- app_assoc. }
    specialize (IH (pre ++ [ch]) Hw). rewrite <- Hsrc in IH.
    rewrite length_app in IH. simpl in IH.
    replace (length pre + 1)%nat with (S (length pre)) in IH by lia.
    replace (length pre + length (ch :: white))%nat
      with (S (length pre) + length white)%nat by (simpl; lia).
    rewrite <- IH. unfold Scanner.scanFrom.
    by rewrite Hleft, (scanLoop_white source _ _ _ ch Hlook Hch).
Qed.

(** X19.  White space between tokens is skipped: a run of blanks, tabs,
    carriage returns and line feeds pushes no token. *)
Theorem whitespace_is_skipped (pre white rest : list ascii)
    (tokens : list Token) :
  Forall (λ ch, isWhite ch = true) white →
  Scanner.scanFrom (pre ++ white ++ rest) (length pre) tokens
  = Scanner.scanFrom (pre ++ white ++ rest) (length pre + length white) tokens.
Proof. apply scanFrom_white. Qed.

Lemma whitespace_is_skipped_witness :
  Scanner.scanFrom (list_ascii_of_string "a   b") 1 [SYMBOL "a"]
  = Scanner.scanFrom (list_ascii_of_string "a   b") 4 [SYMBOL "a"].
Proof.
  apply (whitespace_is_skipped (list_ascii_of_string "a")
           (list_ascii_of_string "   ") (list_ascii_of_string "b")
           [SYMBOL "a"]).
  repeat constructor.
Defined.

Section ScannerIllegal.
Import Scanner.
Variable source : list ascii.
Variables (bad : ascii) (q : nat).
Hypothesis Hq : source !! q = Some bad.
Hypothesis Hbad : isLegal bad = false.

Lemma bad_facts :
  isWhite bad = false ∧ isDigit bad = false ∧ isAlpha bad = false
  ∧ bad ∉ ["("; ")"; "="; ">"; ";"; ","; "."]%char.
Proof using Hbad.
  unfold isLegal in Hbad.
  apply orb_false_iff in Hbad as [H1 H4].
  apply orb_false_iff in H1 as [H1 H3].
  apply orb_false_iff in H1 as [H1 H2].
  by apply bool_decide_eq_false in H4.
Qed.

Lemma peek_bad : peek source q = bad.
Proof using Hq.
  unfold peek. apply lookup_lt_Some in Hq as Hlt.
  case_decide; [lia |]. by rewrite Hq.
Qed.

Lemma advanceWhile_stops p fuel pos :
  p bad = false → (pos ≤ q)%nat → (advanceWhile source p fuel pos ≤ q)%nat.
Proof using Hq.
  intros Hp. revert pos. induction fuel as [|fuel IH]; intros pos Hpos;
    cbn [advanceWhile]; [done |].
  destruct (decide (pos = q)) as [->|Hne].
  - by rewrite peek_bad, Hp.
  - destruct (p (peek source pos)); [apply IH; lia | done].
Qed.

Lemma number_stops start_pos pos :
  (pos ≤ q)%nat → ((number source start_pos pos).1 ≤ q)%nat.
Proof using Hq Hbad.
  destruct bad_facts as (_ & Hd & _ & Hin).
  intros Hpos. unfold number. cbn [fst].
  pose proof (advanceWhile_stops isDigit (left source pos) pos Hd Hpos).
  set (pos1 := advanceWhile source isDigit (left source pos) pos) in *.
  destruct (decide (pos1 = q)) as [Heq|Hne].
  - rewrite Heq, peek_bad.
    rewrite bool_decide_eq_false_2; [simpl; lia |].
    intros ->. apply Hin. set_solver.
  - destruct (_ && _); [| done].
    apply advanceWhile_stops; [done | lia].
Qed.

Lemma identifier_stops start_pos pos :
  (pos ≤ q)%nat → ((identifier source start_pos pos).1 ≤ q)%nat.
Proof using Hq Hbad.
  destruct bad_facts as (_ & Hd & Ha & _).
  intros Hpos. unfold identifier.
  assert (Han : isAlphaNumeric bad = false).
  { unfold isAlphaNumeric. by rewrite Ha, Hd. }
  pose proof (advanceWhile_stops isAlphaNumeric (left source pos) pos Han Hpos).
  by destruct (keywords _).
Qed.

Lemma matchToken_stops pos :
  (pos ≤ q)%nat → ((matchToken source ">" pos).2 ≤ q)%nat.
Proof using Hq Hbad.
  destruct bad_facts as (_ & _ & _ & Hin).
  intros Hpos. unfold matchToken. case_decide; [done |].
  case_bool_decide as Hm; [| done]. cbn [snd].
  destruct (decide (pos = q)) as [->|Hne]; [| lia].
  rewrite Hq in Hm. injection Hm as ->. exfalso. apply Hin. set_solver.
Qed.

(** The scan stops with an error at the illegal character, unless it has
    stopped with an error before. *)
Lemma scanLoop_illegal fuel pos tokens :
  (left source pos ≤ fuel)%nat → (pos ≤ q)%nat →
  ∃ msg, scanLoop source fuel pos tokens = Err msg.
Proof using Hq Hbad.
  destruct bad_facts as (Hw & Hd & Ha & Hin).
  apply lookup_lt_Some in Hq as Hlt.
  unfold left. revert pos tokens.
  induction fuel as [|fuel IH]; intros pos tokens Hf Hpos; cbn [scanLoop];
    case_decide; try lia.
  destruct (decide (pos = q)) as [->|Hne].
  - rewrite Hq. simpl default. unfold isWhite in Hw. rewrite Hw, Hd, Ha.
    rewrite !bool_decide_eq_false_2 by (intros ->; apply Hin; set_solver).
    by eexists.
  - pose proof (number_ge source pos (S pos)).
    pose proof (identifier_ge source pos (S pos)).
    pose proof (matchToken_ge source ">" (S pos)).
    pose proof (number_stops pos (S pos) ltac:(lia)).
    pose proof (identifier_stops pos (S pos) ltac:(lia)).
    pose proof (matchToken_stops (S pos) ltac:(lia)).
    destruct (number source pos (S pos)) as [pn tn].
    destruct (identifier source pos (S pos)) as [pi ti].
    destruct (matchToken source ">" (S pos)) as [m pm].
    cbn [fst snd] in *.
    repeat (match goal with
            | |- context [if ?b then _ else _] => destruct b
            end; try (apply IH; lia); try (by eexists)).
Qed.

End ScannerIllegal.

(** X20.  A source that holds a character no rule accepts (not white space,
    a digit, a letter, an underscore or one of [( ) = > ; , .]) is never
    scanned to tokens: the scan ends in an error. *)
Theorem illegal_character_is_an_error (source : string) (bad : ascii) :
  bad ∈ list_ascii_of_string source →
  isLegal bad = false →
  ∃ msg, Scanner.scanner source = Err msg.
Proof.
  intros Hin Hbad. apply list_elem_of_lookup in Hin as [q Hq].
  unfold Scanner.scanner, Scanner.scanFrom.
  apply (scanLoop_illegal _ bad q Hq Hbad); [done | lia].
Qed.

Lemma illegal_character_is_an_error_witness :
  ∃ msg, Scanner.scanner "let x = 5 + 1; x" = Err msg.
Proof.
  apply (illegal_character_is_an_error "let x = 5 + 1; x" "+"%char).
  - vm_compute. set_solver.
  - reflexivity.
Defined.

(** ** The parser, continued *)

Section ParserSteps.
Import Parser.
Variable tokens : list Token.

Lemma peek_spec cur :
  match peek tokens cur with
  | Ok (t, cur') => cur' = cur ∧ tokens !! cur = Some t
  | Err _ => True
  | OutOfFuel => False
  end.
Proof. unfold peek. by destruct (tokens !! cur). Qed.

Lemma isAtEnd_spec cur :
  match isAtEnd tokens cur with
  | Ok (b, cur') =>
      cur' = cur
      ∧ ∃ t, tokens !! cur = Some t ∧ b = bool_decide (tagOf t = tEOF)
  | Err _ => True
  | OutOfFuel => False
  end.
Proof.
  unfold isAtEnd. pose proof (peek_spec cur) as Hp.
  destruct (peek tokens cur) as [[t c]| |]; cbn [bind]; try done.
  destruct Hp as [-> Ht]. split; [done |]. by exists t.
Qed.

Lemma check_spec tag cur :
  match check tokens tag cur with
  | Ok (b, cur') =>
      cur' = cur
      ∧ ∃ t, tokens !! cur = Some t
             ∧ (b = true → tagOf t ≠ tEOF ∧ tagOf t = tag)
  | Err _ => True
  | OutOfFuel => False
  end.
Proof.
  unfold check. pose proof (isAtEnd_spec cur) as He.
  destruct (isAtEnd tokens cur) as [[b c]| |]; cbn [bind]; try done.
  destruct He as (-> & t & Ht & ->).
  case_bool_decide as Heof.
  - split; [done |]. exists t. by split.
  - pose proof (peek_spec cur) as Hp.
    destruct (peek tokens cur) as [[t' c']| |]; cbn [bind]; try done.
    destruct Hp as [-> Ht']. split; [done |]. exists t.
    split; [done |]. intros Hb%bool_decide_eq_true.
    rewrite Ht in Ht'. by injection Ht' as <-.
Qed.

Lemma previous_spec cur :
  match previous tokens cur with
  | Ok (_, cur') => cur' = cur
  | Err _ => True
  | OutOfFuel => False
  end.
Proof. unfold previous. by destruct (match cur with O => _ | S _ => _ end). Qed.

Lemma advance_spec cur :
  match advance tokens cur with
  | Ok (_, cur') =>
      ∃ t, tokens !! cur = Some t
           ∧ cur' = if bool_decide (tagOf t = tEOF) then cur else S cur
  | Err _ => True
  | OutOfFuel => False
  end.
Proof.
  unfold advance. pose proof (isAtEnd_spec cur) as He.
  destruct (isAtEnd tokens cur) as [[b c]| |]; cbn [bind]; try done.
  destruct He as (-> & t & Ht & ->).
  pose proof (previous_spec
    (if bool_decide (tagOf t = tEOF) then cur else S cur)) as Hp.
  destruct (previous tokens _) as [[t' c']| |]; try done.
  subst c'. by exists t.
Qed.

Lemma matchToken_spec tags cur :
  match matchToken tokens tags cur with
  | Ok (b, cur') =>
      (cur ≤ length tokens)%nat → 
      (cur' ≤ length tokens)%nat ∧ cur' = if b then S cur else cur
  | Err _ => True
  | OutOfFuel => False
  end.
Proof.
  induction tags as [|tag tags IH]; cbn [matchToken]; [done |].
  pose proof (check_spec tag cur) as Hc.
  destruct (check tokens tag cur) as [[b c]| |]; cbn [bind]; try done.
  destruct Hc as (-> & t & Ht & Hb). destruct b; [| exact IH].
  destruct (Hb eq_refl) as [Hne _].
  pose proof (advance_spec cur) as Ha.
  destruct (advance tokens cur) as [[t' c']| |]; cbn [bind]; try done.
  destruct Ha as (t'' & Ht'' & ->). rewrite Ht in Ht''. injection Ht'' as <-.
  rewrite bool_decide_eq_false_2 by done.
  apply lookup_lt_Some in Ht. intros _. split; [lia | done].
Qed.

Lemma consumeToken_spec {R} `{Truthy R} tag (callback : Token → R) cur :
  tag ≠ tEOF →
  match consumeToken tokens tag callback cur with
  | Ok (_, cur') => (cur < length tokens)%nat ∧ cur' = S cur
  | Err _ => True
  | OutOfFuel => False
  end.
Proof.
  intros Htag. unfold consumeToken, consume.
  pose proof (peek_spec cur) as Hp.
  destruct (peek tokens cur) as [[t c]| |]; cbn [bind]; try done.
  destruct Hp as [-> Ht].
  case_bool_decide as Ht'; cbn [negb bind]; [| done].
  destruct (truthy (callback t)); cbn [negb]; [| done].
  pose proof (advance_spec cur) as Ha.
  destruct (advance tokens cur) as [[t' c']| |]; cbn [bind]; try done.
  destruct Ha as (t'' & Ht'' & ->). rewrite Ht in Ht''. injection Ht'' as <-.
  rewrite bool_decide_eq_false_2 by congruence.
  apply lookup_lt_Some in Ht. done.
Qed.

Lemma parseNumber_spec cur : advances tokens cur (parseNumber tokens cur).
Proof.
  unfold parseNumber.
  pose proof (consumeToken_spec tNUMBER numberValue cur ltac:(done)) as Hc.
  destruct (consumeToken _ _ _ _) as [[v c]| |]; cbn [bind advances];
    try done. lia.
Qed.

Lemma parseSymbol_spec cur : advances tokens cur (parseSymbol tokens cur).
Proof.
  unfold parseSymbol.
  pose proof (consumeToken_spec tSYMBOL symbolValue cur ltac:(done)) as Hc.
  destruct (consumeToken _ _ _ _) as [[v c]| |]; cbn [bind advances];
    try done. lia.
Qed.

Section WithExpression.
Variable expression' : P Tree.
Variable from : nat.
Hypothesis Hexpr : ∀ cur,
  (from ≤ cur ≤ length tokens)%nat → advances tokens cur (expression' cur).

Lemma parseParens_spec cur :
  (from ≤ S cur)%nat → advances tokens cur (parseParens tokens expression' cur).
Proof using Hexpr.
  intros Hfrom. unfold parseParens.
  pose proof (consumeToken_spec tLPAREN id cur ltac:(done)) as Hc.
  destruct (consumeToken _ _ _ _) as [[v c]| |]; cbn [bind advances];
    try done.
  destruct Hc as [Hlt ->].
  pose proof (Hexpr (S cur) ltac:(lia)) as He.
  destruct (expression' (S cur)) as [[value c]| |]; cbn [bind advances] in *;
    try done.
  pose proof (consumeToken_spec tRPAREN id c ltac:(done)) as Hc.
  destruct (consumeToken _ _ _ _) as [[v' c']| |]; cbn [bind advances];
    try done. lia.
Qed.

Lemma parseAtom_spec cur :
  (from ≤ S cur)%nat → advances tokens cur (parseAtom tokens expression' cur).
Proof using Hexpr.
  intros Hfrom. unfold parseAtom.
  pose proof (peek_spec cur) as Hp.
  destruct (peek tokens cur) as [[t c]| |] eqn:Hpk; cbn [bind advances];
    try done.
  case_bool_decide; [apply parseNumber_spec |].
  case_bool_decide; [apply parseSymbol_spec |].
  case_bool_decide; [by apply parseParens_spec |].
  unfold fail. by rewrite Hpk.
Qed.

Lemma parseFun_spec cur :
  (from ≤ S cur)%nat → advances tokens cur (parseFun tokens expression' cur).
Proof using Hexpr.
  intros Hfrom. unfold parseFun.
  pose proof (consumeToken_spec tSYMBOL symbolValue cur ltac:(done)) as Hc.
  destruct (consumeToken _ _ _ _) as [[v c]| |]; cbn [bind advances];
    try done.
  destruct Hc as [Hlt ->].
  pose proof (consumeToken_spec tARROW id (S cur) ltac:(done)) as Hc.
  destruct (consumeToken _ _ _ _) as [[v' c]| |]; cbn [bind advances];
    try done.
  destruct Hc as [Hlt' ->].
  pose proof (Hexpr (S (S cur)) ltac:(lia)) as He.
  destruct (expression' _) as [[body c]| |]; cbn [bind advances] in *;
    try done. lia.
Qed.

Lemma parseLet_spec cur :
  (from ≤ S cur)%nat → advances tokens cur (parseLet tokens expression' cur).
Proof using Hexpr.
  intros Hfrom. unfold parseLet.
  pose proof (consumeToken_spec tSYMBOL symbolValue cur ltac:(done)) as Hc.
  destruct (consumeToken _ _ _ _) as [[v c]| |]; cbn [bind advances];
    try done.
  destruct Hc as [Hlt ->].
  pose proof (consumeToken_spec tEQUAL id (S cur) ltac:(done)) as Hc.
  destruct (consumeToken _ _ _ _) as [[v' c]| |]; cbn [bind advances];
    try done.
  destruct Hc as [Hlt' ->].
  pose proof (Hexpr (S (S cur)) ltac:(lia)) as He.
  destruct (expression' _) as [[bind_ c]| |]; cbn [bind advances] in *;
    try done.
  pose proof (consumeToken_spec tSEMICOLON id c ltac:(done)) as Hc.
  destruct (consumeToken _ _ _ _) as [[v'' c']| |]; cbn [bind advances];
    try done.
  destruct Hc as [Hlt'' ->].
  pose proof (Hexpr (S c) ltac:(lia)) as He'.
  destruct (expression' _) as [[body c']| |]; cbn [bind advances] in *;
    try done. lia.
Qed.

Lemma parseCallLoop_spec fuel args cur :
  (from ≤ cur ≤ length tokens)%nat → (length tokens < fuel + cur)%nat →
  advances tokens cur (parseCallLoop tokens expression' fuel args cur).
Proof using Hexpr.
  revert args cur. induction fuel as [|fuel IH]; intros args cur Hcur Hfuel;
    [lia |].
  cbn [parseCallLoop].
  pose proof (Hexpr cur Hcur) as He.
  destruct (expression' cur) as [[arg c]| |]; cbn [bind advances] in *;
    try done.
  pose proof (matchToken_spec [tCOMMA] c) as Hm.
  destruct (matchToken tokens [tCOMMA] c) as [[comma c']| |];
    cbn [bind advances]; try done.
  destruct (Hm ltac:(lia)) as [Hle ->]. destruct comma.
  - specialize (IH (args ++ [arg]) (S c) ltac:(lia) ltac:(lia)).
    destruct (parseCallLoop _ _ _ _ _) as [[? ?]| |]; cbn [advances] in *;
      try done. lia.
  - pose proof (matchToken_spec [tRPAREN] c) as Hm'.
    destruct (matchToken tokens [tRPAREN] c) as [[b c']| |];
      cbn [bind advances]; try done.
    destruct (Hm' ltac:(lia)) as [Hle' ->]. destruct b; lia.
Qed.

Lemma parseApp_spec fuel cur :
  (from ≤ S cur)%nat → (length tokens < fuel + S cur)%nat →
  advances tokens cur (parseApp tokens expression' fuel cur).
Proof using Hexpr.
  intros Hfrom Hfuel. unfold parseApp.
  pose proof (parseAtom_spec cur Hfrom) as Ha.
  destruct (parseAtom _ _ _) as [[func c]| |]; cbn [bind advances] in *;
    try done.
  pose proof (matchToken_spec [tLPAREN] c) as Hm.
  destruct (matchToken tokens [tLPAREN] c) as [[lparen c']| |];
    cbn [bind advances]; try done.
  destruct (Hm ltac:(lia)) as [Hle ->].
  destruct lparen; [| cbn [advances]; lia].
  cbn iota in Hle. unfold parseCall.
  pose proof (parseCallLoop_spec fuel [] (S c) ltac:(lia) ltac:(lia)) as Hl.
  destruct (parseCallLoop _ _ _ _ _) as [[args c']| |];
    cbn [bind advances] in *; try done. lia.
Qed.

Lemma expressionBody_spec fuel cur :
  (cur ≤ length tokens)%nat →
  (from ≤ S cur)%nat → (length tokens < fuel + S cur)%nat →
  advances tokens cur (expressionBody tokens expression' fuel cur).
Proof using Hexpr.
  intros Hcur Hfrom Hfuel. unfold expressionBody.
  pose proof (matchToken_spec [tLET] cur) as Hm.
  destruct (matchToken tokens [tLET] cur) as [[isLet c]| |];
    cbn [bind advances]; try done.
  destruct (Hm Hcur) as [Hle ->]. destruct isLet.
  - pose proof (parseLet_spec (S cur) ltac:(lia)) as Hl.
    destruct (parseLet _ _ _) as [[? ?]| |]; cbn [advances] in *; try done.
    lia.
  - pose proof (matchToken_spec [tFUN] cur) as Hm'.
    destruct (matchToken tokens [tFUN] cur) as [[isFun c]| |];
      cbn [bind advances]; try done.
    destruct (Hm' Hcur) as [Hle' ->]. destruct isFun.
    + pose proof (parseFun_spec (S cur) ltac:(lia)) as Hl.
      destruct (parseFun _ _ _) as [[? ?]| |]; cbn [advances] in *; try done.
      lia.
    + by apply parseApp_spec.
Qed.

End WithExpression.

Lemma expression_spec fuel : ∀ cur,
  (cur ≤ length tokens)%nat → (length tokens < fuel + cur)%nat →
  advances tokens cur (expression tokens fuel cur).
Proof.
  induction fuel as [|fuel IH]; intros cur Hcur Hfuel; [lia |].
  cbn [expression].
  apply (expressionBody_spec (expression tokens fuel) (S cur)); [| done.. | lia].
  intros c Hc. apply IH; lia.
Qed.

End ParserSteps.

(** X21.  The parser always comes to an end: the recursion and the loop over
    the arguments of a call stop for every list of tokens, with a tree or
    with an error. *)
Theorem parser_comes_to_an_end (tokens : list Token) :
  match Parser.parser tokens with
  | Ok _ | Err _ => True
  | OutOfFuel => False
  end.
Proof.
  unfold Parser.parser.
  pose proof (expression_spec tokens (S (length tokens)) 0
                ltac:(lia) ltac:(lia)) as He.
  by destruct (Parser.expression _ _ _) as [[tree c]| |].
Qed.

Section ParserExact.
Import Parser.
Variable tokens : list Token.

Lemma peek_at cur t : tokens !! cur = Some t → peek tokens cur = Ok (t, cur).
Proof. unfold peek. by intros ->. Qed.

Lemma matchToken_at cur t tag :
  tokens !! cur = Some t →
  matchToken tokens [tag] cur
  = if bool_decide (tagOf t = tag) && negb (bool_decide (tagOf t = tEOF))
    then Ok (true, S cur) else Ok (false, cur).
Proof.
  intros Ht. cbn [matchToken]. unfold check, advance, isAtEnd, previous.
  rewrite !(peek_at cur t Ht). cbn [bind].
  destruct (bool_decide (tagOf t = tEOF)) eqn:Heof; cbn [bind negb].
  - by rewrite andb_false_r.
  - rewrite andb_true_r.
    destruct (bool_decide (tagOf t = tag)); cbn [bind]; [| done].
    by rewrite Ht.
Qed.

Lemma consumeToken_at {R} `{Truthy R} cur t tag (callback : Token → R) :
  tokens !! cur = Some t → tagOf t = tag → tag ≠ tEOF →
  truthy (callback t) = true →
  consumeToken tokens tag callback cur = Ok (callback t, S cur).
Proof.
  intros Ht Htag Hne Htruthy.
  unfold consumeToken, consume, advance, isAtEnd, previous.
  rewrite !(peek_at cur t Ht). cbn [bind].
  rewrite bool_decide_eq_true_2 by done. cbn [negb bind].
  rewrite Htruthy. cbn [negb bind].
  rewrite bool_decide_eq_false_2 by congruence.
  by rewrite Ht.
Qed.

End ParserExact.

Lemma lookup_app_add {A} (pre l : list A) (k : nat) :
  (pre ++ l) !! (length pre + k)%nat = l !! k.
Proof. rewrite lookup_app_r by lia. f_equal. lia. Qed.

Lemma lookup_app_here {A} (pre l : list A) :
  (pre ++ l) !! length pre = l !! 0%nat.
Proof. rewrite <- (lookup_app_add pre l 0). f_equal. lia. Qed.

Lemma lookup_app_after {A} (pre l rest : list A) (x : A) :
  (pre ++ l ++ x :: rest) !! (length pre + length l)%nat = Some x.
Proof.
  rewrite app_assoc.
  replace (length pre + length l)%nat with (length (pre ++ l))
    by (by rewrite length_app).
  by rewrite lookup_app_here.
Qed.

Section ParserRoundTrip.
Import Parser.

Local Ltac solve_length :=
  repeat (rewrite ?length_app; simpl); lia.

(** A number or a name that is followed by something else than [LPAREN] is
    an expression of its own. *)
Lemma expression_atom (tokens : list Token) (fuel cur : nat)
    (tree : Tree) (next : Token) :
  isAtomTree tree = true → wfTree tree = true →
  tokens !! cur = head (unparse tree) →
  tokens !! S cur = Some next → tagOf next ≠ tLPAREN →
  expression tokens (S fuel) cur = Ok (tree, S cur).
Proof.
  intros Hatom Hwf Hcur Hnext Hclose.
  destruct tree as [data|data| | |]; try done; cbn [unparse head] in Hcur;
    cbn [expression]; unfold expressionBody;
    rewrite (matchToken_at tokens cur _ tLET Hcur); cbn [tagOf];
    rewrite bool_decide_eq_false_2 by done; cbn [andb bind];
    rewrite (matchToken_at tokens cur _ tFUN Hcur); cbn [tagOf];
    rewrite bool_decide_eq_false_2 by done; cbn [andb bind];
    unfold parseApp, parseAtom; rewrite (peek_at tokens cur _ Hcur);
    cbn [bind tagOf].
  - rewrite bool_decide_eq_true_2 by done. unfold parseNumber.
    rewrite (consumeToken_at tokens cur (NUMBER data) tNUMBER numberValue
               Hcur eq_refl ltac:(done) Hwf).
    cbn [bind numberValue].
    rewrite (matchToken_at tokens (S cur) _ tLPAREN Hnext).
    by rewrite bool_decide_eq_false_2 by done.
  - rewrite bool_decide_eq_false_2 by done.
    rewrite bool_decide_eq_true_2 by done. unfold parseSymbol.
    rewrite (consumeToken_at tokens cur (SYMBOL data) tSYMBOL symbolValue
               Hcur eq_refl ltac:(done) Hwf).
    cbn [bind symbolValue].
    rewrite (matchToken_at tokens (S cur) _ tLPAREN Hnext).
    by rewrite bool_decide_eq_false_2 by done.
Qed.

Lemma closes_head (rest : list Token) :
  closes rest = true → ∃ next rest', rest = next :: rest' ∧ tagOf next ≠ tLPAREN.
Proof.
  destruct rest as [|next rest']; [done |]. intros Hc%negb_true_iff.
  apply bool_decide_eq_false in Hc. by exists next, rest'.
Qed.


Lemma expression_unparse (tree : Tree) : ∀ fuel pre rest,
  wfTree tree = true → (length (unparse tree) ≤ fuel)%nat →
  closes rest = true →
  expression (pre ++ unparse tree ++ rest) fuel (length pre)
  = Ok (tree, (length pre + length (unparse tree))%nat).
Proof.
  induction tree as [data|data|prop body IH|func IHf argm IHa
                    |name bnd IHb body IHe];
    intros fuel pre rest Hwf Hfuel Hrest;
    (destruct fuel as [|fu];
     [cbn [unparse] in Hfuel; rewrite ?length_app in Hfuel;
      simpl in Hfuel; lia |]).
  - destruct (closes_head rest Hrest) as (next & rest' & -> & Hnext).
    rewrite (expression_atom _ fu (length pre) (Num data) next);
      try done.
    + do 2 f_equal. simpl. lia.
    + by rewrite lookup_app_here.
    + replace (S (length pre)) with (length pre + 1)%nat by lia.
      by rewrite lookup_app_add.
  - destruct (closes_head rest Hrest) as (next & rest' & -> & Hnext).
    rewrite (expression_atom _ fu (length pre) (Var data) next);
      try done.
    + do 2 f_equal. simpl. lia.
    + by rewrite lookup_app_here.
    + replace (S (length pre)) with (length pre + 1)%nat by lia.
      by rewrite lookup_app_add.
  - cbn [unparse wfTree] in *. apply andb_true_iff in Hwf as [Hp Hwf].
    set (tokens := pre ++ (FUN :: SYMBOL prop :: ARROW :: unparse body) ++ rest).
    assert (H0 : tokens !! length pre = Some FUN)
      by (unfold tokens; by rewrite lookup_app_here).
    assert (H1 : tokens !! S (length pre) = Some (SYMBOL prop)).
    { unfold tokens. replace (S (length pre)) with (length pre + 1)%nat by lia.
      by rewrite lookup_app_add. }
    assert (H2 : tokens !! S (S (length pre)) = Some ARROW).
    { unfold tokens.
      replace (S (S (length pre))) with (length pre + 2)%nat by lia.
      by rewrite lookup_app_add. }
    cbn [expression]. unfold expressionBody.
    rewrite (matchToken_at tokens _ _ tLET H0). cbn [tagOf].
    rewrite bool_decide_eq_false_2 by done. cbn [andb bind].
    rewrite (matchToken_at tokens _ _ tFUN H0). cbn [tagOf].
    rewrite bool_decide_eq_true_2 by done.
    rewrite bool_decide_eq_false_2 by done. cbn [andb negb bind].
    unfold parseFun.
    rewrite (consumeToken_at tokens _ (SYMBOL prop) tSYMBOL symbolValue
               H1 eq_refl ltac:(done) Hp). cbn [bind symbolValue].
    rewrite (consumeToken_at tokens _ ARROW tARROW id
               H2 eq_refl ltac:(done) eq_refl). cbn [bind].
    unfold tokens.
    replace (pre ++ (FUN :: SYMBOL prop :: ARROW :: unparse body) ++ rest)
      with ((pre ++ [FUN; SYMBOL prop; ARROW]) ++ unparse body ++ rest)
      by (by rewrite <- app_assoc).
    replace (S (S (S (length pre))))
      with (length (pre ++ [FUN; SYMBOL prop; ARROW]))
      by (rewrite length_app; simpl; lia).
    rewrite IH; [| done | simpl in Hfuel; lia | done].
    cbn [bind]. do 2 f_equal. solve_length.
  - cbn [unparse wfTree] in Hwf, Hfuel |- *.
    apply andb_true_iff in Hwf as [Hwff Hwfa].
    remember (if isAtomTree func then unparse func
              else LPAREN :: unparse func ++ [RPAREN]) as atom eqn:Hatom.
    set (tokens := pre ++ (atom ++ LPAREN :: unparse argm ++ [RPAREN]) ++ rest).
    assert (Hlen : (length (atom ++ LPAREN :: unparse argm ++ [RPAREN])
                    = length atom + length (unparse argm) + 2)%nat).
    { solve_length. }
    rewrite Hlen in Hfuel.
    assert (Hfirst : ∃ first others, atom = first :: others
                      ∧ tagOf first ≠ tLET ∧ tagOf first ≠ tFUN
                      ∧ tagOf first ≠ tEOF).
    { rewrite Hatom. destruct func; cbn [isAtomTree unparse];
        by eexists _, _. }
    destruct Hfirst as (first & others & Hat & HnL & HnF & HnE).
    assert (H0 : tokens !! length pre = Some first).
    { unfold tokens. rewrite lookup_app_here, Hat. done. }
    cbn [expression]. unfold expressionBody.
    rewrite (matchToken_at tokens _ _ tLET H0).
    rewrite bool_decide_eq_false_2 by done. cbn [andb bind].
    rewrite (matchToken_at tokens _ _ tFUN H0).
    rewrite bool_decide_eq_false_2 by done. cbn [andb bind].
    unfold parseApp.
    assert (Hpa : parseAtom tokens (expression tokens fu) (length pre)
                  = Ok (func, (length pre + length atom)%nat)).
    { unfold parseAtom. rewrite (peek_at tokens _ _ H0). cbn [bind].
      destruct (isAtomTree func) eqn:Hf.
      - destruct func as [data|data| | |]; try done;
          cbn [unparse] in Hatom; subst atom; injection Hat as <- <-;
          cbn [tagOf].
        + rewrite bool_decide_eq_true_2 by done. unfold parseNumber.
          rewrite (consumeToken_at tokens _ (NUMBER data) tNUMBER numberValue
                     H0 eq_refl ltac:(done) Hwff).
          cbn [bind numberValue]. do 2 f_equal. simpl. lia.
        + rewrite bool_decide_eq_false_2 by done.
          rewrite bool_decide_eq_true_2 by done. unfold parseSymbol.
          rewrite (consumeToken_at tokens _ (SYMBOL data) tSYMBOL symbolValue
                     H0 eq_refl ltac:(done) Hwff).
          cbn [bind symbolValue]. do 2 f_equal. simpl. lia.
      - subst atom. injection Hat as <- <-. cbn [tagOf].
        rewrite !bool_decide_eq_false_2 by done.
        rewrite bool_decide_eq_true_2 by done. unfold parseParens.
        rewrite (consumeToken_at tokens _ LPAREN tLPAREN id
                   H0 eq_refl ltac:(done) eq_refl). cbn [bind].
        assert (Htok : tokens = (pre ++ [LPAREN]) ++ unparse func
                         ++ RPAREN :: LPAREN :: unparse argm ++ RPAREN :: rest).
        { unfold tokens. rewrite <- !app_assoc. cbn [app].
          by rewrite <- !app_assoc. }
        assert (Hpos : S (length pre) = length (pre ++ [LPAREN])).
        { solve_length. }
        rewrite Hpos. rewrite Htok at 1.
        rewrite IHf; [| done | simpl in Hfuel; rewrite length_app in Hfuel;
                                simpl in Hfuel; lia | done].
        cbn [bind].
        assert (HR : tokens !! (length (pre ++ [LPAREN])
                                + length (unparse func))%nat = Some RPAREN).
        { rewrite Htok. apply lookup_app_after. }
        rewrite (consumeToken_at tokens _ RPAREN tRPAREN id
                   HR eq_refl ltac:(done) eq_refl).
        cbn [bind id]. do 2 f_equal. solve_length. }
    rewrite Hpa. cbn [bind].
    assert (Htok : tokens = (pre ++ atom ++ [LPAREN]) ++ unparse argm
                            ++ RPAREN :: rest).
    { unfold tokens. rewrite <- !app_assoc. cbn [app].
      by rewrite <- !app_assoc. }
    assert (HL : tokens !! (length pre + length atom)%nat = Some LPAREN).
    { unfold tokens. rewrite <- !app_assoc. apply lookup_app_after. }
    rewrite (matchToken_at tokens _ _ tLPAREN HL). cbn [tagOf].
    rewrite bool_decide_eq_true_2 by done.
    rewrite bool_decide_eq_false_2 by done. cbn [andb negb bind].
    unfold parseCall.
    destruct fu as [|fu']; [lia |]. cbn [parseCallLoop].
    assert (Hpos : S (length pre + length atom)
                   = length (pre ++ atom ++ [LPAREN])).
    { solve_length. }
    rewrite Hpos. rewrite Htok at 1.
    rewrite IHa; [| done | lia | done]. cbn [bind].
    assert (HR : tokens !! (length (pre ++ atom ++ [LPAREN])
                            + length (unparse argm))%nat = Some RPAREN).
    { rewrite Htok. apply lookup_app_after. }
    rewrite (matchToken_at tokens _ _ tCOMMA HR). cbn [tagOf].
    rewrite bool_decide_eq_false_2 by done. cbn [andb bind].
    rewrite (matchToken_at tokens _ _ tRPAREN HR). cbn [tagOf].
    rewrite bool_decide_eq_true_2 by done.
    rewrite bool_decide_eq_false_2 by done. cbn [andb negb bind foldl app].
    do 2 f_equal. rewrite Hlen. solve_length.
  - cbn [unparse wfTree] in *. apply andb_true_iff in Hwf as [Hwf Hwfe].
    apply andb_true_iff in Hwf as [Hn Hwfb].
    set (tokens := pre ++ (LET :: SYMBOL name :: EQUAL :: unparse bnd
                           ++ SEMICOLON :: unparse body) ++ rest).
    assert (H0 : tokens !! length pre = Some LET)
      by (unfold tokens; by rewrite lookup_app_here).
    assert (H1 : tokens !! S (length pre) = Some (SYMBOL name)).
    { unfold tokens. replace (S (length pre)) with (length pre + 1)%nat by lia.
      by rewrite lookup_app_add. }
    assert (H2 : tokens !! S (S (length pre)) = Some EQUAL).
    { unfold tokens.
      replace (S (S (length pre))) with (length pre + 2)%nat by lia.
      by rewrite lookup_app_add. }
    assert (Hlen : (length (LET :: SYMBOL name :: EQUAL :: unparse bnd
                            ++ SEMICOLON :: unparse body)
                    = length (unparse bnd) + length (unparse body) + 4)%nat).
    { simpl. solve_length. }
    rewrite Hlen in Hfuel.
    cbn [expression]. unfold expressionBody.
    rewrite (matchToken_at tokens _ _ tLET H0). cbn [tagOf].
    rewrite bool_decide_eq_true_2 by done.
    rewrite bool_decide_eq_false_2 by done. cbn [andb negb bind].
    unfold parseLet.
    rewrite (consumeToken_at tokens _ (SYMBOL name) tSYMBOL symbolValue
               H1 eq_refl ltac:(done) Hn). cbn [bind symbolValue].
    rewrite (consumeToken_at tokens _ EQUAL tEQUAL id
               H2 eq_refl ltac:(done) eq_refl). cbn [bind].
    assert (Htok : tokens = (pre ++ [LET; SYMBOL name; EQUAL]) ++ unparse bnd
                            ++ SEMICOLON :: unparse body ++ rest).
    { unfold tokens. rewrite <- !app_assoc. cbn [app].
      by rewrite <- !app_assoc. }
    assert (Hpos : S (S (S (length pre)))
                   = length (pre ++ [LET; SYMBOL name; EQUAL])).
    { solve_length. }
    rewrite Hpos. rewrite Htok at 1.
    rewrite IHb; [| done | lia | done]. cbn [bind].
    assert (HS : tokens !! (length (pre ++ [LET; SYMBOL name; EQUAL])
                            + length (unparse bnd))%nat = Some SEMICOLON).
    { rewrite Htok. apply lookup_app_after. }
    rewrite (consumeToken_at tokens _ SEMICOLON tSEMICOLON id
               HS eq_refl ltac:(done) eq_refl). cbn [bind].
    assert (Htok' : tokens = (pre ++ [LET; SYMBOL name; EQUAL] ++ unparse bnd
                              ++ [SEMICOLON]) ++ unparse body ++ rest).
    { unfold tokens. rewrite <- !app_assoc. cbn [app].
      by rewrite <- !app_assoc. }
    assert (Hpos' : S (length (pre ++ [LET; SYMBOL name; EQUAL])
                       + length (unparse bnd))
                    = length (pre ++ [LET; SYMBOL name; EQUAL] ++ unparse bnd
                              ++ [SEMICOLON])).
    { solve_length. }
    rewrite Hpos'. rewrite Htok' at 1.
    rewrite IHe; [| done | lia | done]. cbn [bind].
    do 2 f_equal. rewrite Hlen. solve_length.
Qed.

End ParserRoundTrip.

(** X22.  Parsing is a left inverse of writing a tree out in tokens: for
    every tree without a zero and without an empty name, the parser answers
    the tree back from its tokens followed by [EOF]. *)
Theorem parser_unparse (tree : Tree) :
  wfTree tree = true →
  Parser.parser (unparse tree ++ [EOF]) = Ok tree.
Proof.
  intros Hwf. unfold Parser.parser.
  pose proof (expression_unparse tree (S (length (unparse tree ++ [EOF])))
                [] [EOF] Hwf) as H.
  cbn [app] in H. change (length (@nil Token)) with 0%nat in H.
  rewrite H; [done | | done].
  rewrite length_app. simpl. lia.
Qed.

Lemma parser_unparse_witness :
  Parser.parser
    (unparse (Let "id" (Lam "x" (Var "x"))
                (App (App (Var "id") (Var "id")) (Num 7))) ++ [EOF])
  = Ok (Let "id" (Lam "x" (Var "x"))
          (App (App (Var "id") (Var "id")) (Num 7))).
Proof.
  apply (parser_unparse
           (Let "id" (Lam "x" (Var "x"))
              (App (App (Var "id") (Var "id")) (Num 7)))).
  reflexivity.
Defined.

Section ParserCalls.
Import Parser.


Lemma argTokens_length_first (first : Tree) (others : list Tree) :
  (length (unparse first) ≤ length (argTokens first others))%nat.
Proof. destruct others; simpl; [done |]. rewrite length_app. lia. Qed.


End ParserCalls.





(** X25.  A source of white space only, the empty source included, scans to
    the single token [EOF] and is a parse error. *)
Theorem blank_source_is_rejected (source : string) :
  Forall (λ ch, isWhite ch = true) (list_ascii_of_string source) →
  Scanner.scanner source = Ok [EOF]
  ∧ bind (Scanner.scanner source) Parser.parser
    = Err "Unexpected token [object Object]".
Proof.
  intros Hw.
  assert (Hs : Scanner.scanner source = Ok [EOF]).
  { unfold Scanner.scanner.
    pose proof (scanFrom_white [] (list_ascii_of_string source) [] [] Hw)
      as Hs.
    rewrite app_nil_r in Hs. cbn [app length Nat.add] in Hs. rewrite Hs.
    unfold Scanner.scanFrom, Scanner.left. rewrite Nat.sub_diag.
    cbn [Scanner.scanLoop]. by rewrite decide_False by lia. }
  split; [done |]. rewrite Hs. reflexivity.
Qed.

Lemma blank_source_is_rejected_witness :
  bind (Scanner.scanner "   ") Parser.parser
  = Err "Unexpected token [object Object]".
Proof.
  apply (blank_source_is_rejected "   "). repeat constructor.
Defined.
(** ** The numbers of the scanner *)

Section Rounding.
Variable z : Z.
Hypothesis Hz : 2 ^ 53 ≤ z.

Local Abbreviation e := (Z.log2 z - 52).

Lemma spacing_exponent : 1 ≤ e.
Proof.
  assert (Z.log2 (2 ^ 53) ≤ Z.log2 z) by (apply Z.log2_le_mono; lia).
  rewrite Z.log2_pow2 in H by lia. lia.
Qed.

Lemma spacing_double : spacing z = 2 * 2 ^ (e - 1).
Proof.
  pose proof spacing_exponent. unfold spacing.
  rewrite <- Z.pow_succ_r by lia. f_equal. lia.
Qed.

Lemma spacing_bounds : 2 ^ 52 * spacing z ≤ z < 2 ^ 53 * spacing z.
Proof.
  pose proof spacing_exponent.
  destruct (Z.log2_spec z ltac:(lia)) as [Hlo Hhi]. unfold spacing.
  rewrite <- !Z.pow_add_r by lia.
  replace (52 + e) with (Z.log2 z) by lia.
  replace (53 + e) with (Z.succ (Z.log2 z)) by lia. done.
Qed.

(** The spacing against that of the largest doubles, 2^971. *)
Lemma spacing_cases :
  spacing z * 2 ≤ 2 ^ 971 ∨ spacing z = 2 ^ 971 ∨ 2 ^ 972 ≤ spacing z.
Proof.
  pose proof spacing_exponent. unfold spacing.
  destruct (Z.lt_trichotomy e 971) as [Hlt|[->|Hgt]].
  - left. rewrite Z.mul_comm, <- Z.pow_succ_r by lia.
    apply Z.pow_le_mono_r; lia.
  - right. by left.
  - right. right. apply Z.pow_le_mono_r; lia.
Qed.

(** [toDouble] from 2^53 on, in terms of the quotient and the remainder of
    [z] by the spacing. *)
Lemma toDouble_unfold :
  toDouble z
  = let q := z / spacing z in
    let r := z mod spacing z in
    let q' := if (2 ^ (e - 1) <? r) || ((r =? 2 ^ (e - 1)) && Z.odd q)
              then q + 1 else q in
    if 2 ^ 1024 <=? q' * spacing z then Infinity
    else Finite (q' * spacing z).
Proof.
  pose proof spacing_exponent. unfold toDouble, spacing.
  destruct (Z.ltb_spec z (2 ^ 53)); [lia |].
  rewrite Z.shiftr_div_pow2, Z.land_ones by lia. cbv zeta.
  by rewrite Z.shiftl_mul_pow2 by lia.
Qed.

(** From 2^53 on the doubles stay from 2^53 on. *)
Lemma toDouble_large :
  match toDouble z with Finite v => 2 ^ 53 ≤ v | Infinity => True end.
Proof.
  rewrite toDouble_unfold. cbv zeta.
  pose proof spacing_double as Hu. pose proof spacing_bounds as Hb.
  assert (0 < 2 ^ (e - 1))
    by (apply Z.pow_pos_nonneg; pose proof spacing_exponent; lia).
  set (u := spacing z) in *.
  pose proof (Z.div_mod z u ltac:(lia)) as Hdm.
  pose proof (Z.mod_pos_bound z u ltac:(lia)) as Hr.
  set (q := z / u) in *. clearbody q.
  assert (Hq : 2 ^ 52 ≤ q) by nia.
  destruct (_ <=? _); [done |].
  destruct (_ || _); nia.
Qed.

Lemma toDouble_nearest :
  match toDouble z with
  | Infinity => 2 ^ 1024 - 2 ^ 970 ≤ z
  | Finite v =>
      z < 2 ^ 1024 - 2 ^ 970
      ∧ (spacing z | v)
      ∧ 2 * Z.abs (v - z) ≤ spacing z
      ∧ (2 * Z.abs (v - z) = spacing z → Z.even (v / spacing z) = true)
  end.
Proof.
  rewrite toDouble_unfold. cbv zeta.
  pose proof spacing_double as Hu. pose proof spacing_bounds as Hb.
  pose proof spacing_cases as Hc.
  set (half := 2 ^ (e - 1)) in *.
  assert (0 < half) by (apply Z.pow_pos_nonneg; pose proof spacing_exponent; lia).
  set (u := spacing z) in *. clearbody u half.
  pose proof (Z.div_mod z u ltac:(lia)) as Hdm.
  pose proof (Z.mod_pos_bound z u ltac:(lia)) as Hr.
  set (q := z / u) in *. set (r := z mod u) in *. clearbody q r.
  assert (Hq : 2 ^ 52 ≤ q < 2 ^ 53) by nia.
  assert (Hcond : ∃ q', (if (half <? r) || ((r =? half) && Z.odd q)
                         then q + 1 else q) = q'
                        ∧ (q' = q + 1 ∧ half ≤ r ∧ (r = half → Z.odd q = true)
                           ∨ q' = q ∧ r ≤ half
                             ∧ (r = half → Z.odd q = false))).
  { eexists. split; [reflexivity |].
    destruct (Z.ltb_spec half r); cbn [orb].
    - left. split_and!; [done | lia | lia].
    - destruct (Z.eqb_spec r half); cbn [andb].
      + destruct (Z.odd q) eqn:Hodd.
        * left. split_and!; [done | lia | done].
        * right. split_and!; [done | lia | done].
      + right. split_and!; [done | lia | done]. }
  destruct Hcond as (q' & -> & Hq').
  assert (Hle : q' ≤ 2 ^ 53) by lia.
  destruct (Z.leb_spec (2 ^ 1024) (q' * u)) as [Hbig|Hsmall].
  - destruct Hc as [Hc|[Hc|Hc]]; [nia | | nia].
    subst u. assert (half = 2 ^ 970) as -> by lia. lia.
  - split_and!.
    + destruct Hc as [Hc|[Hc|Hc]]; [nia | | nia].
      subst u. assert (half = 2 ^ 970) as -> by lia.
      destruct Hq' as [(-> & Hr1 & Ht)|(-> & Hr1 & Ht)]; [lia |].
      destruct (decide (q = 2 ^ 53 - 1)) as [->|]; [| lia].
      destruct (decide (r = 2 ^ 970)) as [Heq|]; [| lia].
      specialize (Ht Heq). done.
    + apply Z.divide_factor_r.
    + destruct Hq' as [(-> & Hr1 & Ht)|(-> & Hr1 & Ht)]; lia.
    + intros Htie. rewrite Z.div_mul by lia.
      destruct Hq' as [(-> & Hr1 & Ht)|(-> & Hr1 & Ht)].
      * rewrite Z.even_add. rewrite <- Z.negb_odd, Ht by lia. done.
      * rewrite <- Z.negb_odd, Ht by lia. done.
Qed.

End Rounding.

(** X26.  The value of the [NUMBER] token of a literal is the double nearest
    to its integer part: the integer part itself up to 2^53; from there on
    a multiple of the spacing of the doubles at most half a spacing away,
    the even multiple if two are as near; and [Infinity] from
    2^1024 - 2^970 on. *)
Theorem literal_scans_to_nearest_double (ds : list ascii)
    (fs : option (list ascii)) :
  digits ds →
  match fs with Some fs => digits fs | None => True end →
  ∃ value,
    Scanner.scanner (string_of_list_ascii (literal ds fs))
    = Ok [NUMBER value; EOF]
    ∧ match value with
      | Infinity => 2 ^ 1024 - 2 ^ 970 ≤ decimalValue ds
      | Finite v =>
          decimalValue ds < 2 ^ 1024 - 2 ^ 970
          ∧ (decimalValue ds ≤ 2 ^ 53 → v = decimalValue ds)
          ∧ (2 ^ 53 ≤ decimalValue ds →
             (spacing (decimalValue ds) | v)
             ∧ 2 * Z.abs (v - decimalValue ds) ≤ spacing (decimalValue ds)
             ∧ (2 * Z.abs (v - decimalValue ds) = spacing (decimalValue ds)
                → Z.even (v / spacing (decimalValue ds)) = true))
      end.
Proof.
  intros Hds Hfs. exists (toDouble (decimalValue ds)).
  split; [by apply scanner_literal |].
  set (z := decimalValue ds). clearbody z.
  destruct (Z.le_gt_cases (2 ^ 53) z) as [Hge|Hlt].
  - pose proof (toDouble_nearest z Hge) as Hn.
    pose proof (toDouble_exact z) as Hex.
    destruct (toDouble z) as [v|]; [| done].
    destruct Hn as (Hfin & Hn). split_and!; [done | | done].
    intros Hle. specialize (Hex Hle). by injection Hex.
  - rewrite toDouble_exact by lia. split_and!; [lia | done | lia].
Qed.

Lemma literal_scans_to_nearest_double_witness :
  let ds := list_ascii_of_string "9007199254740995" in
  let fs := Some (list_ascii_of_string "25") in
  ∃ value,
    Scanner.scanner (string_of_list_ascii (literal ds fs))
    = Ok [NUMBER value; EOF]
    ∧ match value with
      | Infinity => 2 ^ 1024 - 2 ^ 970 ≤ decimalValue ds
      | Finite v =>
          decimalValue ds < 2 ^ 1024 - 2 ^ 970
          ∧ (decimalValue ds ≤ 2 ^ 53 → v = decimalValue ds)
          ∧ (2 ^ 53 ≤ decimalValue ds →
             (spacing (decimalValue ds) | v)
             ∧ 2 * Z.abs (v - decimalValue ds) ≤ spacing (decimalValue ds)
             ∧ (2 * Z.abs (v - decimalValue ds) = spacing (decimalValue ds)
                → Z.even (v / spacing (decimalValue ds)) = true))
      end.
Proof.
  apply (literal_scans_to_nearest_double
           (list_ascii_of_string "9007199254740995")
           (Some (list_ascii_of_string "25"))).
  - split; [done | repeat constructor].
  - split; [done | repeat constructor].
Defined.

(** ** Numbers in the generated code *)

Lemma pretty_N_go_length (k : nat) : ∀ (x : N) (s : string),
  (x < 10 ^ N.of_nat k)%N →
  (String.length (pretty_N_go x s) ≤ String.length s + k)%nat.
Proof.
  induction k as [|k IH]; intros x s Hx.
  - assert (x = 0%N) as -> by (simpl in Hx; lia).
    rewrite pretty_N_go_0. lia.
  - destruct (decide (x = 0%N)) as [->|Hne].
    + rewrite pretty_N_go_0. lia.
    + rewrite pretty_N_go_step by lia.
      etrans; [apply IH |]; [| simpl; lia].
      apply N.Div0.div_lt_upper_bound.
      rewrite Nat2N.inj_succ, N.pow_succ_r' in Hx. lia.
Qed.

Lemma decimalLength_small (z : Z) : 0 < z < 2 ^ 53 → decimalLength z ≤ 16.
Proof.
  intros Hz. unfold decimalLength.
  destruct z as [|p|p]; [lia | | lia].
  change (pretty (Z.pos p)) with (pretty (N.pos p)).
  unfold pretty, pretty_N. rewrite decide_False by done.
  pose proof (pretty_N_go_length 16 (N.pos p) "") as Hlen.
  simpl String.length in Hlen.
  assert (N.pos p < 10 ^ N.of_nat 16)%N as Hp; [| specialize (Hlen Hp); lia].
  change (10 ^ N.of_nat 16)%N with 10000000000000000%N. lia.
Qed.

(** Below 2^53 a number is the only decimal that reads back as it. *)
Lemma shortest_small (fuel : nat) : ∀ k n z,
  0 < z < 2 ^ 53 → shortest fuel k n z = z.
Proof.
  induction fuel as [|fuel IH]; intros k n z Hz; cbn [shortest]; [done |].
  set (unit := 10 ^ (n - k)).
  assert (Hunit : 0 ≤ unit) by (apply Z.pow_nonneg; lia).
  set (lo := z / unit * unit).
  assert (Hlo : 0 ≤ lo ≤ z ∧ (unit = 0 ∧ lo = 0 ∨ z < lo + unit)).
  { unfold lo. destruct (decide (unit = 0)) as [->|Hne].
    - rewrite Z.mul_0_r. lia.
    - pose proof (Z.div_mod z unit Hne) as Hdm.
      pose proof (Z.mod_pos_bound z unit ltac:(lia)) as Hr.
      pose proof (Z.div_pos z unit ltac:(lia) ltac:(lia)). nia. }
  clearbody lo unit.
  assert (Hrlo : readsAs lo z = bool_decide (lo = z)).
  { unfold readsAs. rewrite toDouble_exact by lia.
    apply bool_decide_ext. split; [by intros [=] | by intros ->]. }
  assert (Hrhi : readsAs (lo + unit) z = false).
  { unfold readsAs. apply bool_decide_eq_false_2.
    destruct (Z.le_gt_cases (2 ^ 53) (lo + unit)) as [Hge|Hlt].
    - pose proof (toDouble_large _ Hge) as Hl.
      destruct (toDouble (lo + unit)) as [v|]; [| done].
      intros [= ->]. lia.
    - rewrite toDouble_exact by lia. intros [= Heq]. lia. }
  rewrite Hrlo, Hrhi, andb_false_r.
  case_bool_decide; [done |]. by apply IH.
Qed.

(** X27.  A number up to 2^53 is written into the generated code with its
    decimal digits, as the argument of [build_int]. *)
Theorem codegenNum_writes_digits (build : Build) (z : Z) :
  0 ≤ z ≤ 2 ^ 53 →
  codegenNum build z = build ("build_int(" +:+ pretty z +:+ ")").
Proof.
  intros Hz. unfold codegenNum. do 2 f_equal.
  destruct (decide (z = 2 ^ 53)) as [->|Hne]; [by vm_compute |].
  unfold numberToString.
  destruct (Z.eqb_spec z 0) as [->|Hz0]; [done |].
  destruct (Z.ltb_spec z 0); [lia |].
  unfold positiveToString.
  rewrite shortest_small by lia.
  pose proof (decimalLength_small z ltac:(lia)).
  by destruct (Z.leb_spec (decimalLength z) 21); [| lia].
Qed.

Lemma codegenNum_writes_digits_witness :
  codegenNum exprReturn 42 = "return build_int(42);".
Proof.
  apply (codegenNum_writes_digits exprReturn 42). lia.
Defined.
